(** * cluster-ops: the Supervisor (lib/cluster.js) and the WorkerAgent
    (lib/worker.js), embedded as state-passing functions.

    JavaScript numbers are modelled as [Z] (all the counters of the program
    are integers), dates as milliseconds since the epoch, [Math.random()] as
    a rational in [0,1), strings as [string].  The worker registry
    [#workers] is an object used as an ordered dictionary: its own keys are
    kept in insertion order, which is what [Object.keys] returns for keys
    that are not array indices (worker identities are at least 24 characters
    long, array indices at most 10). *)

From Stdlib Require Import ZArith QArith Qround Lia Ascii String.
From stdpp Require Import gmap strings list fin_maps.

Local Open Scope Z_scope.

(** ** JavaScript primitives used by the program *)

Module JS.

(** One base-16 digit, lowercase as [Number.prototype.toString(16)]
    prints it. *)
Definition hex_digit (d : Z) : ascii :=
  match d with
  | 0 => "0" | 1 => "1" | 2 => "2" | 3 => "3"
  | 4 => "4" | 5 => "5" | 6 => "6" | 7 => "7"
  | 8 => "8" | 9 => "9" | 10 => "a" | 11 => "b"
  | 12 => "c" | 13 => "d" | 14 => "e" | _ => "f"
  end%char.

(** The [k] low base-16 digits of [n], most significant first. *)
Fixpoint hex_digits (k : nat) (n : Z) : string :=
  match k with
  | O => EmptyString
  | S k' => hex_digits k' (n / 16) +:+ String (hex_digit (n mod 16)) EmptyString
  end.

(** Number of base-16 digits of a non-negative integer (1 for zero). *)
Definition hex_width (n : Z) : nat :=
  if n <=? 0 then 1%nat else S (Z.to_nat (Z.log2 n / 4)).

(** [n.toString(16)] for an integer [n]: no leading zero, a minus sign
    for negative numbers. *)
Definition toString16 (n : Z) : string :=
  if n <? 0 then String "-"%char (hex_digits (hex_width (- n)) (- n))
  else hex_digits (hex_width n) n.

Fixpoint repeat_char (k : nat) (c : ascii) : string :=
  match k with
  | O => EmptyString
  | S k' => String c (repeat_char k' c)
  end.

(** [s.padStart(len, c)] with a one-character filler. *)
Definition padStart (len : nat) (c : ascii) (s : string) : string :=
  repeat_char (len - String.length s) c +:+ s.

(** [Math.floor(x * 0x100)] for the rational [x]. *)
Definition floor_times_256 (x : Q) : Z := Qfloor (x * 256).

(** Value of a lowercase hexadecimal character, if it is one. *)
Definition hex_value (c : ascii) : option Z :=
  let n := Z.of_nat (nat_of_ascii c) in
  if (48 <=? n) && (n <=? 57) then Some (n - 48)
  else if (97 <=? n) && (n <=? 102) then Some (n - 87)
  else None.

Definition is_lower_hex (c : ascii) : bool :=
  match hex_value c with Some _ => true | None => false end.

Fixpoint all_lower_hex (s : string) : bool :=
  match s with
  | EmptyString => true
  | String c s' => is_lower_hex c && all_lower_hex s'
  end.

(** Reading a string of hexadecimal digits as a number ([parseInt(s, 16)]
    on a string of digits), with an accumulator. *)
Fixpoint parse_hex_from (acc : Z) (s : string) : option Z :=
  match s with
  | EmptyString => Some acc
  | String c s' =>
      match hex_value c with
      | Some d => parse_hex_from (16 * acc + d) s'
      | None => None
      end
  end.

Definition parse_hex (s : string) : option Z := parse_hex_from 0 s.

(** [s.substring(start, start + len)] *)
Definition substring (start len : nat) (s : string) : string :=
  String.substring start len s.

End JS.

(** ** The protocol between the two sides *)

Module Protocol.

(** Modelled from the spec: lib/syscalls.js is required by both classes
    but is not among the sources; the spec's Protocol/Types component
    "enumerates system call kinds (EXIT, SPIN_UP, SPIN_DOWN)". *)
Inductive syscall : Set := EXIT | SPIN_UP | SPIN_DOWN.

#[global] Instance syscall_eq_dec : EqDecision syscall.
Proof. solve_decision. Defined.

(** The [type] field of an envelope: [null] marks a system call,
    [undefined] a plain message, a string an application channel. *)
Inductive msg_type : Set :=
| type_null
| type_undefined
| type_named (name : string).

(** The fields of a message that the program reads or writes.  A field
    that is absent reads as [undefined], here [None]. *)
Record envelope : Set := {
  type : msg_type;
  call : option syscall;
  system : option syscall;
  count : Z;
  msg_WORKER_ID : option string;
  message : string
}.

End Protocol.

(** ** Objects used as ordered dictionaries *)

Module Obj.
Section Dict.
Context {V : Type}.

(** [o[k]] *)
Fixpoint get (k : string) (o : list (string * V)) : option V :=
  match o with
  | [] => None
  | (k', v) :: o' => if decide (k = k') then Some v else get k o'
  end.

(** [o[k] = v]: an existing key keeps its place, a new key goes last. *)
Fixpoint set (k : string) (v : V) (o : list (string * V)) : list (string * V) :=
  match o with
  | [] => [(k, v)]
  | (k', v') :: o' =>
      if decide (k = k') then (k', v) :: o' else (k', v') :: set k v o'
  end.

(** [delete o[k]] *)
Fixpoint delete (k : string) (o : list (string * V)) : list (string * V) :=
  match o with
  | [] => []
  | (k', v') :: o' =>
      if decide (k = k') then delete k o' else (k', v') :: delete k o'
  end.

(** [Object.keys(o)] *)
Definition keys (o : list (string * V)) : list string := o.*1.

End Dict.
End Obj.

(** ** lib/cluster.js: the Supervisor *)

Module Cluster.
Import Protocol.

(** The function registered on a worker handle's "exit" event. *)
Inductive exit_listener : Set :=
| on_exit_default
    (* this.#onExit.bind(this, worker), attached by #spawnWorker *)
| on_exit_terminated (WORKER_ID : string).
    (* the arrow function attached by #terminateWorker(WORKER_ID) *)

(** A worker handle, as returned by [cluster.fork] and then extended by
    [#spawnWorker].  [fork_env] is the object given to [cluster.fork],
    [sent] the messages passed to [worker.send], oldest first. *)
Record worker : Type := {
  WORKER_ID : string;
  BIRTH_TIME : Z;
  DEATH_TIME : option Z;
  fork_env : gmap string string;
  exit_listeners : list exit_listener;
  sent : list envelope
}.

(** Events emitted by the Supervisor; a worker is named by its handle. *)
Inductive event : Set :=
| death (w : nat) (code : option Z) (signal : option string)
| restart (old : nat) (new : option nat) (code : option Z) (signal : option string)
| message_plain (w : nat) (msg : envelope)
| message_typed (name : string) (w : nat) (payload : string).

Inductive promise_state : Set := Pending | Fulfilled.

(** A callback queued with [process.nextTick]. *)
Inductive tick : Set :=
| stop_check (p : nat).
    (* () => { if (Object.keys(this.#workers).length === 0) resolve(); } *)

Inductive js_error : Set :=
| TypeError.

(** The Supervisor's private fields, followed by the part of the
    process it acts on: the worker handles it has created ([heap], a
    handle is its index), the events it has emitted, the [nextTick]
    queue, the promises returned by [stop], the clock and the random
    generator (the [n]-th reading of each). *)
Record t : Type := {
  target_workers : Z;
  env : gmap string string;
  restart_on_error : bool;
  restart_on_signal : bool;
  restart_on_normal_exit : bool;
  min_restart_age : Z;
  workers : list (string * nat);
  heap : list worker;
  emitted : list event;
  next_ticks : list tick;
  promises : list promise_state;
  clock : nat -> Z;
  clock_reads : nat;
  random : nat -> Q;
  random_reads : nat
}.

Definition set_target_workers (v : Z) (c : t) : t :=
  {| target_workers := v; env := env c;
     restart_on_error := restart_on_error c;
     restart_on_signal := restart_on_signal c;
     restart_on_normal_exit := restart_on_normal_exit c;
     min_restart_age := min_restart_age c; workers := workers c;
     heap := heap c; emitted := emitted c; next_ticks := next_ticks c;
     promises := promises c; clock := clock c;
     clock_reads := clock_reads c; random := random c;
     random_reads := random_reads c |}.

Definition set_workers (v : list (string * nat)) (c : t) : t :=
  {| target_workers := target_workers c; env := env c;
     restart_on_error := restart_on_error c;
     restart_on_signal := restart_on_signal c;
     restart_on_normal_exit := restart_on_normal_exit c;
     min_restart_age := min_restart_age c; workers := v;
     heap := heap c; emitted := emitted c; next_ticks := next_ticks c;
     promises := promises c; clock := clock c;
     clock_reads := clock_reads c; random := random c;
     random_reads := random_reads c |}.

Definition set_heap (v : list worker) (c : t) : t :=
  {| target_workers := target_workers c; env := env c;
     restart_on_error := restart_on_error c;
     restart_on_signal := restart_on_signal c;
     restart_on_normal_exit := restart_on_normal_exit c;
     min_restart_age := min_restart_age c; workers := workers c;
     heap := v; emitted := emitted c; next_ticks := next_ticks c;
     promises := promises c; clock := clock c;
     clock_reads := clock_reads c; random := random c;
     random_reads := random_reads c |}.

Definition set_emitted (v : list event) (c : t) : t :=
  {| target_workers := target_workers c; env := env c;
     restart_on_error := restart_on_error c;
     restart_on_signal := restart_on_signal c;
     restart_on_normal_exit := restart_on_normal_exit c;
     min_restart_age := min_restart_age c; workers := workers c;
     heap := heap c; emitted := v; next_ticks := next_ticks c;
     promises := promises c; clock := clock c;
     clock_reads := clock_reads c; random := random c;
     random_reads := random_reads c |}.

Definition set_next_ticks (v : list tick) (c : t) : t :=
  {| target_workers := target_workers c; env := env c;
     restart_on_error := restart_on_error c;
     restart_on_signal := restart_on_signal c;
     restart_on_normal_exit := restart_on_normal_exit c;
     min_restart_age := min_restart_age c; workers := workers c;
     heap := heap c; emitted := emitted c; next_ticks := v;
     promises := promises c; clock := clock c;
     clock_reads := clock_reads c; random := random c;
     random_reads := random_reads c |}.

Definition set_promises (v : list promise_state) (c : t) : t :=
  {| target_workers := target_workers c; env := env c;
     restart_on_error := restart_on_error c;
     restart_on_signal := restart_on_signal c;
     restart_on_normal_exit := restart_on_normal_exit c;
     min_restart_age := min_restart_age c; workers := workers c;
     heap := heap c; emitted := emitted c; next_ticks := next_ticks c;
     promises := v; clock := clock c;
     clock_reads := clock_reads c; random := random c;
     random_reads := random_reads c |}.

Definition set_clock_reads (v : nat) (c : t) : t :=
  {| target_workers := target_workers c; env := env c;
     restart_on_error := restart_on_error c;
     restart_on_signal := restart_on_signal c;
     restart_on_normal_exit := restart_on_normal_exit c;
     min_restart_age := min_restart_age c; workers := workers c;
     heap := heap c; emitted := emitted c; next_ticks := next_ticks c;
     promises := promises c; clock := clock c;
     clock_reads := v; random := random c;
     random_reads := random_reads c |}.

Definition set_random_reads (v : nat) (c : t) : t :=
  {| target_workers := target_workers c; env := env c;
     restart_on_error := restart_on_error c;
     restart_on_signal := restart_on_signal c;
     restart_on_normal_exit := restart_on_normal_exit c;
     min_restart_age := min_restart_age c; workers := workers c;
     heap := heap c; emitted := emitted c; next_ticks := next_ticks c;
     promises := promises c; clock := clock c;
     clock_reads := clock_reads c; random := random c;
     random_reads := v |}.

(** *** Statements: a state and exception monad *)

Inductive outcome (A : Type) : Type :=
| Returned (a : A)
| Thrown (e : js_error).
Arguments Returned {A} a.
Arguments Thrown {A} e.

Definition M (A : Type) : Type := t -> outcome A * t.

Definition ret {A} (a : A) : M A := fun c => (Returned a, c).

Definition bind {A B} (m : M A) (k : A -> M B) : M B :=
  fun c =>
    match m c with
    | (Returned a, c') => k a c'
    | (Thrown e, c') => (Thrown e, c')
    end.

Definition throw {A} (e : js_error) : M A := fun c => (Thrown e, c).
Definition gets {A} (f : t -> A) : M A := fun c => (Returned (f c), c).
Definition modify (f : t -> t) : M unit := fun c => (Returned tt, f c).

Declare Scope js_scope.
Delimit Scope js_scope with js.
Notation "'let*' x ':=' m 'in' k" := (bind m (fun x => k))
  (at level 10, x name, m at level 100, k at level 200) : js_scope.
Notation "m ';;' k" := (bind m (fun _ => k))
  (at level 100, k at level 200, right associativity) : js_scope.
Local Open Scope js_scope.

(** [body(i); body(i+1); ...], [n] times: the [for] loops of the class. *)
Fixpoint for_loop (n : nat) (i : nat) (body : nat -> M unit) : M unit :=
  match n with
  | O => ret tt
  | S n' => body i ;; for_loop n' (S i) body
  end.

(** *** The runtime *)

(** [new Date()], in milliseconds *)
Definition now : M Z :=
  fun c => (Returned (clock c (clock_reads c)),
            set_clock_reads (S (clock_reads c)) c).

(** [Math.random()] *)
Definition Math_random : M Q :=
  fun c => (Returned (random c (random_reads c)),
            set_random_reads (S (random_reads c)) c).

(** [this.emit(...)]: listeners of the Supervisor's events belong to the
    owner; they are recorded, not run. *)
Definition emit (e : event) : M unit :=
  modify (fun c => set_emitted (emitted c ++ [e]) c).

(** A field update on the handle [w]. *)
Definition update_worker (w : nat) (f : worker -> worker) : M unit :=
  modify (fun c => set_heap (alter f w (heap c)) c).

Definition set_DEATH_TIME (d : Z) (x : worker) : worker :=
  {| WORKER_ID := WORKER_ID x; BIRTH_TIME := BIRTH_TIME x;
     DEATH_TIME := Some d; fork_env := fork_env x;
     exit_listeners := exit_listeners x; sent := sent x |}.

Definition set_exit_listeners (l : list exit_listener) (x : worker) : worker :=
  {| WORKER_ID := WORKER_ID x; BIRTH_TIME := BIRTH_TIME x;
     DEATH_TIME := DEATH_TIME x; fork_env := fork_env x;
     exit_listeners := l; sent := sent x |}.

Definition set_sent (l : list envelope) (x : worker) : worker :=
  {| WORKER_ID := WORKER_ID x; BIRTH_TIME := BIRTH_TIME x;
     DEATH_TIME := DEATH_TIME x; fork_env := fork_env x;
     exit_listeners := exit_listeners x; sent := l |}.

(** [{ ...src }] over an object that already holds [dst]: every property
    of [src] is copied, replacing a property of the same name. *)
Definition spread (dst src : gmap string string) : gmap string string :=
  src ∪ dst.

(** A value used where the language expects a property name. *)
Definition property_key (k : option string) : string :=
  default "undefined" k.

(** [if (signal)]: [null] and the empty string are falsy. *)
Definition truthy (signal : option string) : bool :=
  match signal with
  | Some s => negb (bool_decide (s = ""))
  | None => false
  end.

(** [code !== 0], where [code] is a number or [null] *)
Definition code_not_zero (code : option Z) : bool :=
  match code with
  | Some 0 => false
  | _ => true
  end.

(** *** The class *)

(** Lines 359-362: the identity of a new worker. *)
Fixpoint random_suffix (n : nat) (id : string) : M string :=
  match n with
  | O => ret id
  | S n' =>
      let* r := Math_random in
      random_suffix n'
        (id +:+ JS.padStart 2 "0" (JS.toString16 (JS.floor_times_256 r)))
  end.

Definition new_WORKER_ID : M string :=
  let* d := now in
  random_suffix 8 (JS.padStart 8 "0" (JS.toString16 (d / 1000))).

(** [#spawnWorker()].  The call of [cluster.setupPrimary] hands the
    executable, arguments, directory and user to the launcher and
    touches nothing of the state modelled here. *)
Definition spawnWorker : M string :=
  let* id := new_WORKER_ID in
  let* e := gets env in
  let* birth := now in
  let* w := gets (fun c => length (heap c)) in
  modify (fun c =>
    set_heap (heap c ++
      [{| WORKER_ID := id; BIRTH_TIME := birth; DEATH_TIME := None;
          fork_env := spread {[ "WORKER_ID" := id ]} e;
          exit_listeners := [on_exit_default]; sent := [] |}]) c) ;;
  modify (fun c => set_workers (Obj.set id w (workers c)) c) ;;
  ret id.

(** [get running_workers()] *)
Definition running_workers (c : t) : Z :=
  Z.of_nat (length (Obj.keys (workers c))).

(** [start()] *)
Definition start : M unit :=
  let* n := gets target_workers in
  for_loop (Z.to_nat n) 0 (fun _ => spawnWorker ;; ret tt).

(** [#terminateWorker(WORKER_ID)]; the argument is [undefined] when the
    caller read past the end of a key list. *)
Definition terminateWorker (k : option string) : M unit :=
  let* r := gets (fun c => Obj.get (property_key k) (workers c)) in
  match r with
  | None => throw TypeError
      (* worker is undefined: worker.removeAllListeners throws *)
  | Some w =>
      update_worker w (set_exit_listeners []) ;;
      update_worker w (fun x =>
        set_sent (sent x ++
          [{| type := type_null; call := None; system := Some EXIT;
              count := 0; msg_WORKER_ID := k; message := "" |}]) x) ;;
      update_worker w (fun x =>
        set_exit_listeners
          (exit_listeners x ++ [on_exit_terminated (property_key k)]) x)
  end.

Definition new_promise : M nat :=
  let* p := gets (fun c => length (promises c)) in
  modify (fun c => set_promises (promises c ++ [Pending]) c) ;;
  ret p.

Definition nextTick (f : tick) : M unit :=
  modify (fun c => set_next_ticks (next_ticks c ++ [f]) c).

(** [resolve()] of the promise [p]; a settled promise stays as it is. *)
Definition resolve (p : nat) : M unit :=
  modify (fun c => set_promises (<[p := Fulfilled]> (promises c)) c).

(** [stop()]; the result is the promise it returns. *)
Definition stop : M nat :=
  let* keys := gets (fun c => Obj.keys (workers c)) in
  for_loop (length keys) 0 (fun i => terminateWorker (keys !! i)) ;;
  let* p := new_promise in
  nextTick (stop_check p) ;;
  ret p.

(** [spinUp(x)] *)
Definition spinUp (x : Z) : M unit :=
  modify (fun c => set_target_workers (target_workers c + x) c) ;;
  for_loop (Z.to_nat x) 0 (fun _ => spawnWorker ;; ret tt).

(** [spinDown(x, force)] *)
Definition spinDown (x : Z) (force : bool) : M unit :=
  modify (fun c => set_target_workers (target_workers c - x) c) ;;
  if force then
    let* keys := gets (fun c => Obj.keys (workers c)) in
    for_loop (Z.to_nat x) 0 (fun i => terminateWorker (keys !! i))
  else ret tt.

(** [refreshWorkers()] *)
Definition refreshWorkers : M unit :=
  let* more_processes := gets (fun c => target_workers c - running_workers c) in
  for_loop (Z.to_nat more_processes) 0 (fun _ => spawnWorker ;; ret tt).

(** [#onSystemMessage(worker, msg)] *)
Definition onSystemMessage (w : nat) (msg : envelope) : M unit :=
  if decide (call msg = Some SPIN_UP) then spinUp (count msg)
  else if decide (call msg = Some SPIN_DOWN) then spinDown (count msg) false
  else ret tt.

(** [#onMessage(worker, msg)] *)
Definition onMessage (w : nat) (msg : envelope) : M unit :=
  match type msg with
  | type_null => onSystemMessage w msg
  | type_undefined => emit (message_plain w msg)
  | type_named name => emit (message_typed name w (message msg))
  end.

(** The three identical branches of [#onExit]: spawn and announce. *)
Definition replace_worker (w : nat) (code : option Z) (signal : option string)
  : M unit :=
  let* new_WORKER_ID := spawnWorker in
  let* n := gets (fun c => Obj.get new_WORKER_ID (workers c)) in
  emit (restart w n code signal).

(** [#onExit(worker, code, signal)].  A handle outside the heap cannot
    be passed: the function is bound to a handle that exists. *)
Definition onExit (w : nat) (code : option Z) (signal : option string)
  : M unit :=
  let* d := now in
  update_worker w (set_DEATH_TIME d) ;;
  let* h := gets (fun c => heap c !! w) in
  match h with
  | None => ret tt
  | Some x =>
      modify (fun c => set_workers (Obj.delete (WORKER_ID x) (workers c)) c) ;;
      emit (death w code signal) ;;
      let age := d - BIRTH_TIME x in
      let* below := gets (fun c => running_workers c <? target_workers c) in
      let* min_age := gets min_restart_age in
      if below then
        if truthy signal then
          let* on_signal := gets restart_on_signal in
          if (min_age <=? age) && on_signal
          then replace_worker w code signal else ret tt
        else if code_not_zero code then
          let* on_error := gets restart_on_error in
          if (min_age <=? age) && on_error
          then replace_worker w code signal else ret tt
        else
          let* on_normal_exit := gets restart_on_normal_exit in
          if (min_age <=? age) && on_normal_exit
          then replace_worker w code signal else ret tt
      else ret tt
  end.

(** One listener of a handle's "exit" event. *)
Definition run_exit_listener (w : nat) (code : option Z)
    (signal : option string) (l : exit_listener) : M unit :=
  match l with
  | on_exit_default => onExit w code signal
  | on_exit_terminated id =>
      (if truthy signal || code_not_zero code
       then emit (death w code signal) else ret tt) ;;
      modify (fun c => set_workers (Obj.delete id (workers c)) c)
  end.

Fixpoint run_exit_listeners (w : nat) (code : option Z)
    (signal : option string) (ls : list exit_listener) : M unit :=
  match ls with
  | [] => ret tt
  | l :: ls' =>
      run_exit_listener w code signal l ;;
      run_exit_listeners w code signal ls'
  end.

(** The runtime emits "exit" on the handle [w]: the listeners attached
    at that moment run in the order of their registration. *)
Definition worker_exit (w : nat) (code : option Z) (signal : option string)
  : M unit :=
  let* h := gets (fun c => heap c !! w) in
  match h with
  | None => ret tt
  | Some x => run_exit_listeners w code signal (exit_listeners x)
  end.

(** The runtime emits "message" on the handle [w]; its one listener is
    [#onMessage], attached by [#spawnWorker] and never removed. *)
Definition worker_message (w : nat) (msg : envelope) : M unit :=
  let* h := gets (fun c => heap c !! w) in
  match h with
  | None => ret tt
  | Some _ => onMessage w msg
  end.

(** One queued [nextTick] callback. *)
Definition run_tick (f : tick) : M unit :=
  match f with
  | stop_check p =>
      let* n := gets (fun c => length (Obj.keys (workers c))) in
      if decide (n = 0%nat) then resolve p else ret tt
  end.

Fixpoint run_ticks (fs : list tick) : M unit :=
  match fs with
  | [] => ret tt
  | f :: fs' => run_tick f ;; run_ticks fs'
  end.

(** The [nextTick] queue is emptied when the running callback returns,
    before the event loop delivers anything else. *)
Definition drain_ticks : M unit :=
  let* fs := gets next_ticks in
  modify (set_next_ticks []) ;;
  run_ticks fs.

(** [new Cluster(opts)] after the defaults are filled in, in a process
    with the given clock and random generator. *)
Definition new (workers0 : Z) (env0 : gmap string string)
    (error signal normal_exit : bool) (min_age : Z)
    (clock0 : nat -> Z) (random0 : nat -> Q) : t :=
  {| target_workers := workers0; env := env0;
     restart_on_error := error; restart_on_signal := signal;
     restart_on_normal_exit := normal_exit; min_restart_age := min_age;
     workers := []; heap := []; emitted := []; next_ticks := [];
     promises := []; clock := clock0; clock_reads := 0;
     random := random0; random_reads := 0 |}.

(** The state a statement leaves behind, whether it returns or throws. *)
Definition exec {A} (m : M A) (c : t) : t := (m c).2.

(** What reaches the Supervisor, one turn of the event loop each: a
    call by the owner or a notification about a worker, followed by
    the [nextTick] callbacks it queued. *)
Inductive turn : Type :=
| call_start
| call_stop
| call_spinUp (x : Z)
| call_spinDown (x : Z) (force : bool)
| call_refreshWorkers
| notify_message (w : nat) (msg : envelope)
| notify_exit (w : nat) (code : option Z) (signal : option string).

Definition run_turn (e : turn) : M unit :=
  match e with
  | call_start => start
  | call_stop => stop ;; ret tt
  | call_spinUp x => spinUp x
  | call_spinDown x force => spinDown x force
  | call_refreshWorkers => refreshWorkers
  | notify_message w msg => worker_message w msg
  | notify_exit w code signal => worker_exit w code signal
  end.

Definition step (c : t) (e : turn) : t :=
  exec drain_ticks (exec (run_turn e) c).

Definition run (es : list turn) (c : t) : t := foldl step c es.

End Cluster.

(** ** lib/worker.js: the WorkerAgent *)

Module Worker.
Import Protocol.

(** The object handed to the listeners of the agent's "exit" event. *)
Inductive classification : Set :=
| by_signal (signal : string)   (* { signal: `SIG${...}` } *)
| disconnected                  (* { disconnected: true } *)
| error                         (* { error: true } *)
| requested.                    (* { requested: true } *)

(** The functions the constructor registers on [process]. *)
Inductive process_handler : Set :=
| bound_onMessage
    (* this.#onMessage.bind(this) *)
| bound_onExit (opts : classification) (exit : bool).
    (* this.#onExit.bind(this, null, opts, exit) *)

(** A function registered on the agent's "exit" event: one of the
    application's, named by a number, or the arrow function of [#onExit]
    that ends the process. *)
Inductive callback : Set :=
| application (f : nat)
| exit_zero.   (* () => { process.exit(0); } *)

(** A registration: [reg] tells apart two registrations of one
    function, [once] is set for [once(...)]. *)
Record listener : Set := {
  reg : nat;
  fn : callback;
  once : bool
}.

(** What the process does that can be seen from outside the class. *)
Inductive action : Set :=
| called (f : nat) (opts : classification) (args : list string)
    (* an application listener of "exit" was called *)
| emitted (name : string) (payload : envelope + string)
    (* emit("message", msg) or emit("message-" + type, msg.message) *)
| process_send (msg : envelope)
| process_exit (code : Z).

(** The worker process: the static flag of the class, the handlers on
    [process], the one agent's "exit" listeners, and what happened so
    far.  [exited] holds the code once [process.exit] was called. *)
Record process : Set := {
  has_been_created : bool;
  handlers : list (string * process_handler);
  exit_listeners : list listener;
  registrations : nat;
  trace : list action;
  exited : option Z
}.

Definition CATCH_SIGNALS : list string :=
  ["HUP"; "INT"; "QUIT"; "TERM"; "ABRT"; "BREAK"].

(** A process in which the module was loaded and nothing else happened. *)
Definition fresh : process :=
  {| has_been_created := false; handlers := []; exit_listeners := [];
     registrations := 0; trace := []; exited := None |}.

Definition set_has_been_created (b : bool) (p : process) : process :=
  {| has_been_created := b; handlers := handlers p;
     exit_listeners := exit_listeners p; registrations := registrations p;
     trace := trace p; exited := exited p |}.

(** [process.on(name, h)] *)
Definition process_on (name : string) (h : process_handler) (p : process)
  : process :=
  {| has_been_created := has_been_created p;
     handlers := handlers p ++ [(name, h)];
     exit_listeners := exit_listeners p; registrations := registrations p;
     trace := trace p; exited := exited p |}.

(** [this.on("exit", f)] and [this.once("exit", f)] *)
Definition add_exit_listener (f : callback) (o : bool) (p : process)
  : process :=
  {| has_been_created := has_been_created p; handlers := handlers p;
     exit_listeners :=
       exit_listeners p ++ [{| reg := registrations p; fn := f; once := o |}];
     registrations := S (registrations p);
     trace := trace p; exited := exited p |}.

Definition remove_exit_listener (r : nat) (p : process) : process :=
  {| has_been_created := has_been_created p; handlers := handlers p;
     exit_listeners :=
       filter (fun l => reg l <> r) (exit_listeners p);
     registrations := registrations p;
     trace := trace p; exited := exited p |}.

Definition log (a : action) (p : process) : process :=
  {| has_been_created := has_been_created p; handlers := handlers p;
     exit_listeners := exit_listeners p; registrations := registrations p;
     trace := trace p ++ [a]; exited := exited p |}.

(** [process.exit(code)]: nothing runs in the process afterwards. *)
Definition process_exit_with (code : Z) (p : process) : process :=
  {| has_been_created := has_been_created p; handlers := handlers p;
     exit_listeners := exit_listeners p; registrations := registrations p;
     trace := trace p ++ [process_exit code]; exited := Some code |}.

Definition alive (p : process) : bool :=
  match exited p with None => true | Some _ => false end.

(** One listener of "exit" is called; a [once] listener is removed
    first.  The application's functions are taken to return and to
    leave the agent's listeners as they are. *)
Definition call_listener (opts : classification) (args : list string)
    (l : listener) (p : process) : process :=
  let p := if once l then remove_exit_listener (reg l) p else p in
  match fn l with
  | application f => log (called f opts args) p
  | exit_zero => process_exit_with 0 p
  end.

(** [this.emit("exit", opts, ...args)] over the listeners registered
    when it starts. *)
Fixpoint call_listeners (opts : classification) (args : list string)
    (ls : list listener) (p : process) : process :=
  match ls with
  | [] => p
  | l :: ls' =>
      if alive p
      then call_listeners opts args ls' (call_listener opts args l p)
      else p
  end.

Definition emit_exit (opts : classification) (args : list string)
    (p : process) : process :=
  call_listeners opts args (exit_listeners p) p.

(** [#onExit(msg, opts, exit, ...args)] *)
Definition onExit (opts : classification) (exit : bool)
    (args : list string) (p : process) : process :=
  let p := if exit then add_exit_listener exit_zero true p else p in
  emit_exit opts args p.

(** [#onSystemMessage(msg)] *)
Definition onSystemMessage (msg : envelope) (p : process) : process :=
  if decide (call msg = Some EXIT) then onExit requested true [] p
  else p.

(** [#onMessage(msg)] *)
Definition onMessage (msg : envelope) (p : process) : process :=
  match type msg with
  | type_null => onSystemMessage msg p
  | type_undefined => log (emitted "message" (inl msg)) p
  | type_named name =>
      log (emitted ("message-" +:+ name) (inr (message msg))) p
  end.

(** [send(message, type)] *)
Definition send (m : string) (ty : msg_type) (p : process) : process :=
  log (process_send {| type := ty; call := None; system := None;
                       count := 0; msg_WORKER_ID := None;
                       message := m |}) p.

Inductive outcome : Set :=
| Constructed
| Thrown (what : string).

(** [new Worker()] *)
Definition constructor (p : process) : outcome * process :=
  if has_been_created p then
    (Thrown "[cluster-ops] Worker instance has already been created in this process",
     p)
  else
    let p := set_has_been_created true p in
    let p := process_on "message" bound_onMessage p in
    let p :=
      foldl (fun p s =>
               process_on ("SIG" +:+ s)
                 (bound_onExit (by_signal ("SIG" +:+ s)) true) p)
            p CATCH_SIGNALS in
    let p := process_on "disconnect" (bound_onExit disconnected true) p in
    let p :=
      process_on "uncaughtExceptionMonitor" (bound_onExit error false) p in
    (Constructed, p).

(** An event of [process]: a message from the Supervisor, or a named
    event with its arguments (a signal, "disconnect",
    "uncaughtExceptionMonitor"). *)
Inductive process_event : Set :=
| ev_message (msg : envelope)
| ev_named (name : string) (args : list string).

Definition event_name (e : process_event) : string :=
  match e with
  | ev_message _ => "message"
  | ev_named name _ => name
  end.

Definition call_handler (e : process_event) (h : process_handler)
    (p : process) : process :=
  match h, e with
  | bound_onMessage, ev_message msg => onMessage msg p
  | bound_onMessage, ev_named _ _ => p
  | bound_onExit opts exit, ev_named _ args => onExit opts exit args p
  | bound_onExit opts exit, ev_message _ => onExit opts exit [] p
  end.

Fixpoint call_handlers (e : process_event)
    (hs : list (string * process_handler)) (p : process) : process :=
  match hs with
  | [] => p
  | (name, h) :: hs' =>
      if alive p then
        call_handlers e hs'
          (if decide (name = event_name e) then call_handler e h p else p)
      else p
  end.

(** The runtime emits [e] on [process]. *)
Definition process_emit (e : process_event) (p : process) : process :=
  call_handlers e (handlers p) p.

(** What happens in a worker process: the application constructs the
    agent, registers listeners on its "exit" event or sends a message;
    the runtime delivers an event. *)
Inductive input : Set :=
| do_construct
| do_on_exit (f : nat)
| do_once_exit (f : nat)
| do_send (m : string) (ty : msg_type)
| do_event (e : process_event).

(** The agent exists once a construction has returned; before that
    there is nothing to register a listener on or to send with. *)
Definition step (p : process) (i : input) : process :=
  if alive p then
    match i with
    | do_construct => (constructor p).2
    | do_on_exit f =>
        if has_been_created p then add_exit_listener (application f) false p
        else p
    | do_once_exit f =>
        if has_been_created p then add_exit_listener (application f) true p
        else p
    | do_send m ty => if has_been_created p then send m ty p else p
    | do_event e => process_emit e p
    end
  else p.

Definition run (ins : list input) (p : process) : process := foldl step p ins.

(** The results of the construction attempts made during [ins]. *)
Fixpoint constructions (ins : list input) (p : process) : list outcome :=
  match ins with
  | [] => []
  | i :: ins' =>
      let rest := constructions ins' (step p i) in
      match i with
      | do_construct =>
          if alive p then (constructor p).1 :: rest else rest
      | _ => rest
      end
  end.

End Worker.


(** ** Sample runs *)

Module Scenario.
Import Protocol Cluster.

(** A clock that advances one second per reading, and a generator that
    runs through the multiples of 1/256. *)
Definition ticking (n : nat) : Z := 1700000000000 + 1000 * Z.of_nat n.
Definition cycling (n : nat) : Q := Z.of_nat (n mod 256) # 256.

(** [new Cluster({ workers: n })] with the default restart policy. *)
Definition cluster (n : Z) : t :=
  new n ∅ true true false 500 ticking cycling.

(** A started pool of [n] workers. *)
Definition pool (n : Z) : t := step (cluster n) call_start.

(** The same with a clock that stands still: a worker that dies has
    lived for no time at all. *)
Definition frozen (n : nat) : Z := 1700000000000.

Definition crashing (n : Z) : t :=
  new n ∅ true true false 500 frozen cycling.

Definition crashing_pool (n : Z) : t := step (crashing n) call_start.

(** The message a worker sends to have [n] more workers. *)
Definition spin_up_request (n : Z) : envelope :=
  {| type := type_null; call := Some SPIN_UP; system := None;
     count := n; msg_WORKER_ID := None; message := "" |}.

(** The EXIT system call as the WorkerAgent reads it. *)
Definition exit_request : envelope :=
  {| type := type_null; call := Some EXIT; system := None;
     count := 0; msg_WORKER_ID := None; message := "" |}.

End Scenario.
(** * Properties *)

(** ** Strings and base 16 *)

Module JSFacts.
Import JS.

Lemma append_nil (s : string) : "" +:+ s = s.
Proof. reflexivity. Qed.

Lemma append_cons (a : ascii) (s1 s2 : string) :
  String a s1 +:+ s2 = String a (s1 +:+ s2).
Proof. reflexivity. Qed.

Ltac string_induction s :=
  induction s as [|? s ?];
  rewrite ?append_nil, ?append_cons; simpl.

Lemma length_append (s1 s2 : string) :
  String.length (s1 +:+ s2) = (String.length s1 + String.length s2)%nat.
Proof. string_induction s1; congruence. Qed.

Lemma append_assoc (s1 s2 s3 : string) :
  (s1 +:+ s2) +:+ s3 = s1 +:+ (s2 +:+ s3).
Proof. string_induction s1; rewrite ?append_cons; congruence. Qed.

Lemma append_empty_r (s : string) : s +:+ "" = s.
Proof. string_induction s; congruence. Qed.

Lemma substring_zero (s : string) n : String.substring n 0 s = "".
Proof.
  revert n; induction s as [|a s IH]; intros [|n]; simpl; auto.
Qed.

Lemma substring_append_prefix (s1 s2 : string) :
  String.substring 0 (String.length s1) (s1 +:+ s2) = s1.
Proof.
  string_induction s1.
  - apply substring_zero.
  - congruence.
Qed.

Lemma substring_append_skip (s1 s2 : string) (n m : nat) :
  String.substring (String.length s1 + n) m (s1 +:+ s2)
  = String.substring n m s2.
Proof. string_induction s1; auto. Qed.

Lemma all_lower_hex_append (s1 s2 : string) :
  all_lower_hex (s1 +:+ s2) = all_lower_hex s1 && all_lower_hex s2.
Proof.
  string_induction s1; [reflexivity|].
  destruct (is_lower_hex _); simpl; auto.
Qed.

Lemma parse_hex_from_append (s1 s2 : string) (acc : Z) :
  parse_hex_from acc (s1 +:+ s2)
  = match parse_hex_from acc s1 with
    | Some a => parse_hex_from a s2
    | None => None
    end.
Proof.
  revert acc; string_induction s1; intros acc; [reflexivity|].
  destruct (hex_value _); auto.
Qed.

(** Every digit printed is a lowercase hexadecimal character, and reads
    back as the number it was printed from. *)
Lemma hex_value_digit (d : Z) :
  0 <= d < 16 -> hex_value (hex_digit d) = Some d.
Proof.
  intros H.
  assert (d = 0 \/ d = 1 \/ d = 2 \/ d = 3 \/ d = 4 \/ d = 5 \/ d = 6 \/
          d = 7 \/ d = 8 \/ d = 9 \/ d = 10 \/ d = 11 \/ d = 12 \/
          d = 13 \/ d = 14 \/ d = 15) as Hd by lia.
  repeat (destruct Hd as [-> | Hd]; [reflexivity|]). now subst.
Qed.

Lemma is_lower_hex_digit (d : Z) : is_lower_hex (hex_digit d) = true.
Proof.
  destruct d as [|p|p]; try reflexivity.
  do 4 (destruct p as [p|p|]; try reflexivity).
Qed.

Lemma length_hex_digits (k : nat) (n : Z) :
  String.length (hex_digits k n) = k.
Proof.
  revert n; induction k as [|k IH]; intros n; simpl; [reflexivity|].
  rewrite length_append, IH. simpl. lia.
Qed.

Lemma all_lower_hex_digits (k : nat) (n : Z) :
  all_lower_hex (hex_digits k n) = true.
Proof.
  revert n; induction k as [|k IH]; intros n; simpl; [reflexivity|].
  rewrite all_lower_hex_append, IH. simpl.
  now rewrite is_lower_hex_digit.
Qed.

Lemma parse_hex_from_digits (k : nat) (n acc : Z) :
  parse_hex_from acc (hex_digits k n)
  = Some (acc * 16 ^ Z.of_nat k + n mod 16 ^ Z.of_nat k).
Proof.
  revert n acc; induction k as [|k IH]; intros n acc.
  - simpl. f_equal. rewrite Z.mod_1_r. lia.
  - cbn [hex_digits]. rewrite parse_hex_from_append, IH. cbn [parse_hex_from].
    rewrite hex_value_digit by (apply Z.mod_pos_bound; lia).
    f_equal. rewrite Nat2Z.inj_succ, Z.pow_succ_r by lia.
    assert (0 < 16 ^ Z.of_nat k) as Hp by (apply Z.pow_pos_nonneg; lia).
    rewrite (Z.rem_mul_r n 16 (16 ^ Z.of_nat k)) by lia.
    ring.
Qed.

(** The width computed for [toString(16)] is the least that holds the
    number. *)
Lemma hex_width_fits (n : Z) :
  0 <= n -> n < 16 ^ Z.of_nat (hex_width n).
Proof.
  intros Hn. unfold hex_width.
  destruct (Z.leb_spec n 0) as [H0|Hpos].
  - assert (n = 0) as -> by lia. reflexivity.
  - rewrite Nat2Z.inj_succ, Z2Nat.id
      by (apply Z.div_pos; [apply Z.log2_nonneg | lia]).
    change 16 with (2 ^ 4). rewrite <- Z.pow_mul_r; try lia.
    2:{ pose proof (Z.log2_nonneg n).
        pose proof (Z.div_pos (Z.log2 n) 4). lia. }
    apply Z.log2_lt_pow2; [lia|].
    pose proof (Z.div_mod (Z.log2 n) 4 ltac:(lia)).
    pose proof (Z.mod_pos_bound (Z.log2 n) 4 ltac:(lia)). lia.
Qed.

Lemma hex_width_le (k : nat) (n : Z) :
  (1 <= k)%nat -> 0 <= n < 16 ^ Z.of_nat k -> (hex_width n <= k)%nat.
Proof.
  intros Hk [Hn Hlt]. unfold hex_width.
  destruct (Z.leb_spec n 0) as [H0|Hpos]; [lia|].
  assert (Z.log2 n < 4 * Z.of_nat k) as Hlog.
  { apply Z.log2_lt_pow2; [lia|].
    rewrite Z.pow_mul_r by lia. exact Hlt. }
  pose proof (Z.log2_nonneg n).
  assert (Z.log2 n / 4 < Z.of_nat k) by (apply Z.div_lt_upper_bound; lia).
  pose proof (Z.div_pos (Z.log2 n) 4). lia.
Qed.

Lemma hex_width_gt (k : nat) (n : Z) :
  16 ^ Z.of_nat k <= n -> (k < hex_width n)%nat.
Proof.
  intros Hle.
  assert (0 < 16 ^ Z.of_nat k) by (apply Z.pow_pos_nonneg; lia).
  pose proof (hex_width_fits n ltac:(lia)) as Hfit.
  destruct (Nat.lt_ge_cases k (hex_width n)) as [|Hge]; [assumption|].
  exfalso.
  assert (16 ^ Z.of_nat (hex_width n) <= 16 ^ Z.of_nat k)
    by (apply Z.pow_le_mono_r; lia).
  lia.
Qed.

Lemma toString16_nonneg (n : Z) :
  0 <= n -> toString16 n = hex_digits (hex_width n) n.
Proof.
  intros Hn. unfold toString16.
  destruct (Z.ltb_spec n 0); [lia | reflexivity].
Qed.

Lemma length_toString16 (n : Z) :
  0 <= n -> String.length (toString16 n) = hex_width n.
Proof.
  intros Hn. rewrite toString16_nonneg by assumption.
  apply length_hex_digits.
Qed.

Lemma all_lower_hex_toString16 (n : Z) :
  0 <= n -> all_lower_hex (toString16 n) = true.
Proof.
  intros Hn. rewrite toString16_nonneg by assumption.
  apply all_lower_hex_digits.
Qed.

(** Printing in base 16 and reading back gives the number. *)
Lemma parse_hex_toString16 (n : Z) :
  0 <= n -> parse_hex (toString16 n) = Some n.
Proof.
  intros Hn. rewrite toString16_nonneg by assumption.
  unfold parse_hex. rewrite parse_hex_from_digits.
  rewrite Z.mod_small by (split; [assumption | now apply hex_width_fits]).
  f_equal.
Qed.

Lemma length_repeat_char (k : nat) (c : ascii) :
  String.length (repeat_char k c) = k.
Proof. induction k; simpl; congruence. Qed.

Lemma length_padStart (len : nat) (c : ascii) (s : string) :
  String.length (padStart len c s) = Nat.max len (String.length s).
Proof.
  unfold padStart. rewrite length_append, length_repeat_char. lia.
Qed.

Lemma all_lower_hex_padStart (len : nat) (s : string) :
  all_lower_hex (padStart len "0" s) = all_lower_hex s.
Proof.
  unfold padStart. rewrite all_lower_hex_append.
  induction (len - String.length s)%nat; simpl; auto.
Qed.

(** Zeros in front do not change the number read. *)
Lemma parse_hex_padStart (len : nat) (s : string) :
  parse_hex (padStart len "0" s) = parse_hex s.
Proof.
  unfold padStart, parse_hex. rewrite parse_hex_from_append.
  induction (len - String.length s)%nat; simpl; auto.
Qed.

(** [Math.floor(Math.random() * 0x100)] is a byte. *)
Lemma floor_times_256_byte (x : Q) :
  (0 <= x)%Q -> (x < 1)%Q -> 0 <= floor_times_256 x < 256.
Proof.
  intros H0 H1. unfold floor_times_256. split.
  - change 0 with (Qfloor 0). apply Qfloor_resp_le.
    apply Qmult_le_0_compat; [assumption | discriminate].
  - assert (x * 256 < 256)%Q as Hlt.
    { destruct x as [a b]. unfold Qlt in *. cbn in *. lia. }
    pose proof (Qfloor_le (x * 256)) as Hfl.
    rewrite Zlt_Qlt. eapply Qle_lt_trans; eassumption.
Qed.

End JSFacts.

(** ** Ordered dictionaries *)

Module ObjFacts.
Section Dict.
Context {V : Type}.
Implicit Types (o : list (string * V)) (k : string) (v : V).

Lemma get_set_eq k v o : Obj.get k (Obj.set k v o) = Some v.
Proof.
  induction o as [|[k' v'] o IH]; simpl.
  - now rewrite decide_True.
  - destruct (decide (k = k')) as [->|Hne]; simpl.
    + now rewrite decide_True.
    + now rewrite decide_False.
Qed.

Lemma get_set_ne k k' v o :
  k <> k' -> Obj.get k' (Obj.set k v o) = Obj.get k' o.
Proof.
  intros Hne. induction o as [|[k0 v0] o IH]; simpl.
  - rewrite decide_False; congruence.
  - destruct (decide (k = k0)) as [->|Hne0]; simpl.
    + rewrite !decide_False; congruence.
    + now rewrite IH.
Qed.

Lemma get_delete_eq k o : Obj.get k (Obj.delete k o) = None.
Proof.
  induction o as [|[k' v'] o IH]; simpl; [reflexivity|].
  destruct (decide (k = k')); simpl; [assumption|].
  now rewrite decide_False.
Qed.

Lemma get_delete_ne k k' o :
  k <> k' -> Obj.get k' (Obj.delete k o) = Obj.get k' o.
Proof.
  intros Hne. induction o as [|[k0 v0] o IH]; simpl; [reflexivity|].
  destruct (decide (k = k0)) as [->|Hne0]; simpl.
  - rewrite decide_False; congruence.
  - now rewrite IH.
Qed.

Lemma get_is_Some k o : is_Some (Obj.get k o) <-> k ∈ Obj.keys o.
Proof.
  unfold Obj.keys. induction o as [|[k' v'] o IH]; simpl.
  - split; [intros [? ?]; discriminate | intros H; inversion H].
  - destruct (decide (k = k')) as [->|Hne].
    + split; [intros _; apply list_elem_of_here | eauto].
    + rewrite IH. split; [apply list_elem_of_further|].
      intros H. apply elem_of_cons in H as [?|?]; first [congruence | assumption].
Qed.

Lemma get_None k o : Obj.get k o = None <-> k ∉ Obj.keys o.
Proof.
  rewrite <- get_is_Some, eq_None_not_Some. reflexivity.
Qed.

(** A key read from [Object.keys(o)] is a key of [o]. *)
Lemma get_keys_lookup o i k :
  Obj.keys o !! i = Some k -> is_Some (Obj.get k o).
Proof.
  intros H. apply get_is_Some. eapply list_elem_of_lookup_2, H.
Qed.

Lemma keys_set_in k v o :
  k ∈ Obj.keys o -> Obj.keys (Obj.set k v o) = Obj.keys o.
Proof.
  unfold Obj.keys. induction o as [|[k' v'] o IH]; simpl; intros Hin.
  - inversion Hin.
  - destruct (decide (k = k')) as [->|Hne]; simpl; [reflexivity|].
    f_equal. apply IH. apply elem_of_cons in Hin as [?|?]; first [congruence | assumption].
Qed.

Lemma keys_set_notin k v o :
  k ∉ Obj.keys o -> Obj.keys (Obj.set k v o) = Obj.keys o ++ [k].
Proof.
  unfold Obj.keys. induction o as [|[k' v'] o IH]; simpl; intros Hin.
  - reflexivity.
  - apply not_elem_of_cons in Hin as [Hne Hin].
    rewrite decide_False by assumption. simpl. f_equal. now apply IH.
Qed.

Lemma length_set k v o :
  length (Obj.set k v o)
  = if decide (k ∈ Obj.keys o) then length o else S (length o).
Proof.
  destruct (decide (k ∈ Obj.keys o)) as [Hin|Hin].
  - rewrite <- (length_fmap fst (Obj.set k v o)).
    change (fst <$> Obj.set k v o) with (Obj.keys (Obj.set k v o)).
    rewrite keys_set_in by assumption. apply length_fmap.
  - rewrite <- (length_fmap fst (Obj.set k v o)).
    change (fst <$> Obj.set k v o) with (Obj.keys (Obj.set k v o)).
    rewrite keys_set_notin by assumption.
    rewrite length_app. unfold Obj.keys. rewrite length_fmap. simpl. lia.
Qed.

Lemma NoDup_keys_set k v o :
  NoDup (Obj.keys o) -> NoDup (Obj.keys (Obj.set k v o)).
Proof.
  intros Hnd. destruct (decide (k ∈ Obj.keys o)) as [Hin|Hin].
  - now rewrite keys_set_in.
  - rewrite keys_set_notin by assumption.
    apply NoDup_app. repeat split; [assumption| |apply NoDup_singleton].
    intros x Hx Hx'. apply list_elem_of_singleton in Hx'. congruence.
Qed.

Lemma elem_of_set k v o (x : string * V) :
  x ∈ Obj.set k v o -> x = (k, v) \/ x ∈ o.
Proof.
  induction o as [|[k' v'] o IH]; simpl.
  - intros H. apply list_elem_of_singleton in H. now left.
  - destruct (decide (k = k')) as [->|Hne]; intros H;
      apply elem_of_cons in H as [->|H].
    + now left.
    + right. now apply list_elem_of_further.
    + right. apply list_elem_of_here.
    + destruct (IH H) as [?|?]; [now left|].
      right. now apply list_elem_of_further.
Qed.

Lemma elem_of_delete k o (x : string * V) :
  x ∈ Obj.delete k o <-> x ∈ o /\ x.1 <> k.
Proof.
  induction o as [|[k' v'] o IH]; simpl.
  - split; [intros H; inversion H | intros [H _]; inversion H].
  - destruct (decide (k = k')) as [->|Hne].
    + rewrite IH, elem_of_cons. split; [tauto|].
      intros [[->|H] Hx]; [simpl in Hx; congruence | tauto].
    + rewrite !elem_of_cons, IH. split.
      * intros [->|[H Hx]]; [simpl; split; [now left | congruence] | tauto].
      * intros [[->|H] Hx]; [now left | tauto].
Qed.

Lemma keys_delete k o :
  Obj.keys (Obj.delete k o) = filter (fun k' => k' <> k) (Obj.keys o).
Proof.
  unfold Obj.keys. induction o as [|[k' v'] o IH]; simpl; [reflexivity|].
  destruct (decide (k = k')) as [->|Hne].
  - rewrite filter_cons_False by (simpl; tauto). assumption.
  - rewrite filter_cons_True by (simpl; congruence). simpl. now f_equal.
Qed.

Lemma NoDup_keys_delete k o :
  NoDup (Obj.keys o) -> NoDup (Obj.keys (Obj.delete k o)).
Proof. intros H. rewrite keys_delete. now apply NoDup_filter. Qed.

Lemma delete_notin k o : k ∉ Obj.keys o -> Obj.delete k o = o.
Proof.
  unfold Obj.keys. induction o as [|[k' v'] o IH]; simpl; intros Hin;
    [reflexivity|].
  apply not_elem_of_cons in Hin as [Hne Hin].
  rewrite decide_False by assumption. f_equal. now apply IH.
Qed.

(** Deleting a key that is there takes exactly one entry away. *)
Lemma length_delete_in k o :
  NoDup (Obj.keys o) -> k ∈ Obj.keys o ->
  S (length (Obj.delete k o)) = length o.
Proof.
  unfold Obj.keys. induction o as [|[k' v'] o IH]; simpl;
    intros Hnd Hin; [inversion Hin|].
  apply NoDup_cons in Hnd as [Hk' Hnd].
  destruct (decide (k = k')) as [->|Hne].
  - now rewrite delete_notin.
  - simpl. f_equal. apply IH; [assumption|].
    apply elem_of_cons in Hin as [?|?]; first [congruence | assumption].
Qed.

Lemma get_elem_of k v o :
  NoDup (Obj.keys o) -> (k, v) ∈ o -> Obj.get k o = Some v.
Proof.
  unfold Obj.keys. induction o as [|[k' v'] o IH]; simpl;
    intros Hnd Hin; [inversion Hin|].
  apply NoDup_cons in Hnd as [Hk' Hnd].
  apply elem_of_cons in Hin as [Heq|Hin].
  - injection Heq as -> ->. now rewrite decide_True.
  - destruct (decide (k = k')) as [->|Hne]; [|now apply IH].
    exfalso. apply Hk'. apply list_elem_of_fmap. now exists (k', v).
Qed.

Lemma elem_of_get k v o : Obj.get k o = Some v -> (k, v) ∈ o.
Proof.
  induction o as [|[k' v'] o IH]; simpl; [discriminate|].
  destruct (decide (k = k')) as [->|Hne].
  - intros [= ->]. apply list_elem_of_here.
  - intros H. apply list_elem_of_further. now apply IH.
Qed.

End Dict.
End ObjFacts.

(** ** The Supervisor *)

Module ClusterFacts.
Import Protocol Cluster.
Local Open Scope js_scope.

(** *** What one spawn does *)

(** The randomness read for one identity: the next eight readings. *)
Definition next_randoms (c : t) : list Q :=
  (fun i => random c (i + random_reads c)%nat) <$> seq 0 8.

(** The two characters appended for one reading. *)
Definition byte_part (r : Q) : string :=
  JS.padStart 2 "0" (JS.toString16 (JS.floor_times_256 r)).

(** The eight characters the identity starts with. *)
Definition time_part (ms : Z) : string :=
  JS.padStart 8 "0" (JS.toString16 (ms / 1000)).

Definition identity (ms : Z) (rs : list Q) : string :=
  foldl (fun id r => id +:+ byte_part r) (time_part ms) rs.

(** The identity the next spawn gives out. *)
Definition next_WORKER_ID (c : t) : string :=
  identity (clock c (clock_reads c)) (next_randoms c).

(** The handle the next spawn creates. *)
Definition next_worker (c : t) : worker :=
  {| WORKER_ID := next_WORKER_ID c;
     BIRTH_TIME := clock c (S (clock_reads c));
     DEATH_TIME := None;
     fork_env := spread {[ "WORKER_ID" := next_WORKER_ID c ]} (env c);
     exit_listeners := [on_exit_default];
     sent := [] |}.

(** The state after the next spawn. *)
Definition spawned (c : t) : t :=
  {| target_workers := target_workers c; env := env c;
     restart_on_error := restart_on_error c;
     restart_on_signal := restart_on_signal c;
     restart_on_normal_exit := restart_on_normal_exit c;
     min_restart_age := min_restart_age c;
     workers := Obj.set (next_WORKER_ID c) (length (heap c)) (workers c);
     heap := heap c ++ [next_worker c];
     emitted := emitted c; next_ticks := next_ticks c;
     promises := promises c; clock := clock c;
     clock_reads := S (S (clock_reads c)); random := random c;
     random_reads := (8 + random_reads c)%nat |}.

Lemma new_WORKER_ID_eq (c : t) :
  new_WORKER_ID c
  = (Returned (next_WORKER_ID c),
     set_random_reads (8 + random_reads c)%nat
       (set_clock_reads (S (clock_reads c)) c)).
Proof. reflexivity. Qed.

Lemma spawnWorker_eq (c : t) :
  spawnWorker c = (Returned (next_WORKER_ID c), spawned c).
Proof. reflexivity. Qed.

(** *** The shape of an identity *)

Fixpoint byte_parts (rs : list Q) : string :=
  match rs with
  | [] => ""
  | r :: rs' => byte_part r +:+ byte_parts rs'
  end.

Lemma identity_parts (ms : Z) (rs : list Q) :
  identity ms rs = time_part ms +:+ byte_parts rs.
Proof.
  unfold identity. generalize (time_part ms) as s.
  induction rs as [|r rs IH]; intros s; simpl.
  - now rewrite JSFacts.append_empty_r.
  - now rewrite IH, JSFacts.append_assoc.
Qed.

Lemma length_time_part_ge (ms : Z) : (8 <= String.length (time_part ms))%nat.
Proof. unfold time_part. rewrite JSFacts.length_padStart. lia. Qed.

Lemma length_byte_parts_ge (rs : list Q) :
  (2 * length rs <= String.length (byte_parts rs))%nat.
Proof.
  induction rs as [|r rs IH]; simpl; [lia|].
  rewrite JSFacts.length_append. unfold byte_part at 1.
  rewrite JSFacts.length_padStart. lia.
Qed.

(** Whatever the clock and the generator say, an identity has at least
    24 characters, so it is never the name "undefined" nor an array
    index. *)
Lemma length_next_WORKER_ID_ge (c : t) :
  (24 <= String.length (next_WORKER_ID c))%nat.
Proof.
  unfold next_WORKER_ID. rewrite identity_parts, JSFacts.length_append.
  pose proof (length_time_part_ge (clock c (clock_reads c))).
  pose proof (length_byte_parts_ge (next_randoms c)) as H2.
  assert (length (next_randoms c) = 8%nat) as Hlen by reflexivity.
  lia.
Qed.

Definition unit_interval (r : Q) : Prop := (0 <= r)%Q /\ (r < 1)%Q.

Section InRange.
Variable ms : Z.
Hypothesis seconds_fit : 0 <= ms / 1000 < 2 ^ 32.

Lemma length_time_part : String.length (time_part ms) = 8%nat.
Proof.
  unfold time_part.
  rewrite JSFacts.length_padStart, JSFacts.length_toString16 by lia.
  pose proof (JSFacts.hex_width_le 8 (ms / 1000) ltac:(lia)) as H.
  change (16 ^ Z.of_nat 8) with (2 ^ 32) in H. lia.
Qed.

Lemma all_lower_hex_time_part : JS.all_lower_hex (time_part ms) = true.
Proof.
  unfold time_part.
  rewrite JSFacts.all_lower_hex_padStart.
  apply JSFacts.all_lower_hex_toString16. lia.
Qed.

Lemma parse_hex_time_part : JS.parse_hex (time_part ms) = Some (ms / 1000).
Proof.
  unfold time_part.
  rewrite JSFacts.parse_hex_padStart.
  apply JSFacts.parse_hex_toString16. lia.
Qed.
End InRange.

Lemma length_byte_part (r : Q) :
  unit_interval r -> String.length (byte_part r) = 2%nat.
Proof.
  intros [H0 H1]. pose proof (JSFacts.floor_times_256_byte r H0 H1) as Hb.
  unfold byte_part.
  rewrite JSFacts.length_padStart, JSFacts.length_toString16 by lia.
  pose proof (JSFacts.hex_width_le 2 (JS.floor_times_256 r) ltac:(lia)) as H.
  change (16 ^ Z.of_nat 2) with 256 in H. lia.
Qed.

Lemma all_lower_hex_byte_part (r : Q) :
  unit_interval r -> JS.all_lower_hex (byte_part r) = true.
Proof.
  intros [H0 H1]. pose proof (JSFacts.floor_times_256_byte r H0 H1) as Hb.
  unfold byte_part. rewrite JSFacts.all_lower_hex_padStart.
  apply JSFacts.all_lower_hex_toString16. lia.
Qed.

Lemma parse_hex_byte_part (r : Q) :
  unit_interval r ->
  JS.parse_hex (byte_part r) = Some (JS.floor_times_256 r).
Proof.
  intros [H0 H1]. pose proof (JSFacts.floor_times_256_byte r H0 H1) as Hb.
  unfold byte_part. rewrite JSFacts.parse_hex_padStart.
  apply JSFacts.parse_hex_toString16. lia.
Qed.

Lemma length_byte_parts (rs : list Q) :
  Forall unit_interval rs ->
  String.length (byte_parts rs) = (2 * length rs)%nat.
Proof.
  induction 1 as [|r rs Hr _ IH]; simpl; [reflexivity|].
  rewrite JSFacts.length_append, length_byte_part, IH by assumption. lia.
Qed.

Lemma all_lower_hex_byte_parts (rs : list Q) :
  Forall unit_interval rs -> JS.all_lower_hex (byte_parts rs) = true.
Proof.
  induction 1 as [|r rs Hr _ IH]; simpl; [reflexivity|].
  now rewrite JSFacts.all_lower_hex_append, all_lower_hex_byte_part, IH.
Qed.

Lemma substring_byte_parts (rs : list Q) (i : nat) (r : Q) :
  Forall unit_interval rs ->
  rs !! i = Some r ->
  JS.substring (2 * i) 2 (byte_parts rs) = byte_part r.
Proof.
  intros Hrs. revert i. unfold JS.substring.
  induction Hrs as [|r0 rs Hr0 Hrs IH]; intros i Hi; [discriminate|].
  destruct i as [|i]; simpl in Hi; cbn [byte_parts].
  - injection Hi as ->. change (2 * 0)%nat with 0%nat.
    rewrite <- (length_byte_part r Hr0).
    apply JSFacts.substring_append_prefix.
  - replace (2 * S i)%nat with (String.length (byte_part r0) + 2 * i)%nat
      by (rewrite length_byte_part by assumption; lia).
    rewrite JSFacts.substring_append_skip. now apply IH.
Qed.

(** Reading an identity back: the seconds in its first eight
    characters, and the [i]-th random byte in the two characters at
    [8 + 2 i]. *)
Definition id_seconds (id : string) : option Z :=
  JS.parse_hex (JS.substring 0 8 id).

Definition id_byte (i : nat) (id : string) : option Z :=
  JS.parse_hex (JS.substring (8 + 2 * i) 2 id).

Lemma identity_seconds (ms : Z) (rs : list Q) :
  0 <= ms / 1000 < 2 ^ 32 ->
  id_seconds (identity ms rs) = Some (ms / 1000).
Proof.
  intros Hms. unfold id_seconds, JS.substring. rewrite identity_parts.
  rewrite <- (length_time_part ms Hms) at 1.
  rewrite JSFacts.substring_append_prefix.
  now apply parse_hex_time_part.
Qed.

Lemma identity_byte (ms : Z) (rs : list Q) (i : nat) (r : Q) :
  0 <= ms / 1000 < 2 ^ 32 ->
  Forall unit_interval rs ->
  rs !! i = Some r ->
  id_byte i (identity ms rs) = Some (JS.floor_times_256 r).
Proof.
  intros Hms Hrs Hi. unfold id_byte. rewrite identity_parts.
  pose proof (substring_byte_parts rs i r Hrs Hi) as Hsub.
  unfold JS.substring in *.
  rewrite <- (length_time_part ms Hms) at 1.
  rewrite JSFacts.substring_append_skip, Hsub.
  apply parse_hex_byte_part.
  rewrite Forall_forall in Hrs. apply Hrs.
  eapply list_elem_of_lookup_2. eassumption.
Qed.

Lemma length_identity (ms : Z) (rs : list Q) :
  0 <= ms / 1000 < 2 ^ 32 ->
  Forall unit_interval rs ->
  String.length (identity ms rs) = (8 + 2 * length rs)%nat.
Proof.
  intros Hms Hrs.
  now rewrite identity_parts, JSFacts.length_append,
    length_time_part, length_byte_parts.
Qed.

Lemma all_lower_hex_identity (ms : Z) (rs : list Q) :
  0 <= ms / 1000 < 2 ^ 32 ->
  Forall unit_interval rs ->
  JS.all_lower_hex (identity ms rs) = true.
Proof.
  intros Hms Hrs.
  now rewrite identity_parts, JSFacts.all_lower_hex_append,
    all_lower_hex_time_part, all_lower_hex_byte_parts.
Qed.

(** *** Reasoning about statements *)

Lemma exec_bind {A B} (m : M A) (k : A -> M B) (c : t) :
  exec (bind m k) c
  = match (m c).1 with
    | Returned a => exec (k a) (exec m c)
    | Thrown _ => exec m c
    end.
Proof. unfold exec, bind. now destruct (m c) as [[a|e] c']. Qed.

Lemma bind_returned {A B} (m : M A) (k : A -> M B) (c c' : t) (a : A) :
  m c = (Returned a, c') -> bind m k c = k a c'.
Proof. unfold bind. now intros ->. Qed.

Lemma bind_thrown {A B} (m : M A) (k : A -> M B) (c c' : t) e :
  m c = (Thrown e, c') -> bind m k c = (Thrown e, c').
Proof. unfold bind. now intros ->. Qed.

(** A property of the state that a statement keeps, whether it returns
    or throws. *)
Definition preserves {A} (I : t -> Prop) (m : M A) : Prop :=
  forall c, I c -> I (exec m c).

Section Preserves.
Variable I : t -> Prop.

Lemma preserves_ret {A} (a : A) : preserves I (ret a).
Proof. now intros c Hc. Qed.

Lemma preserves_throw {A} e : preserves I (@throw A e).
Proof. now intros c Hc. Qed.

Lemma preserves_gets {A} (f : t -> A) : preserves I (gets f).
Proof. now intros c Hc. Qed.

Lemma preserves_modify (f : t -> t) :
  (forall c, I c -> I (f c)) -> preserves I (modify f).
Proof. intros Hf c Hc. now apply Hf. Qed.

Lemma preserves_bind {A B} (m : M A) (k : A -> M B) :
  preserves I m -> (forall a, preserves I (k a)) -> preserves I (bind m k).
Proof.
  intros Hm Hk c Hc. rewrite exec_bind.
  destruct (m c).1; [apply Hk|]; now apply Hm.
Qed.

Lemma preserves_for_loop (n i : nat) (body : nat -> M unit) :
  (forall j, preserves I (body j)) -> preserves I (for_loop n i body).
Proof.
  intros Hbody. revert i. induction n as [|n IH]; intros i; simpl.
  - apply preserves_ret.
  - apply preserves_bind; [apply Hbody | intros _; apply IH].
Qed.

Lemma preserves_now :
  (forall c n, I c -> I (set_clock_reads n c)) -> preserves I now.
Proof. intros H c Hc. now apply H. Qed.

Lemma preserves_Math_random :
  (forall c n, I c -> I (set_random_reads n c)) -> preserves I Math_random.
Proof. intros H c Hc. now apply H. Qed.
End Preserves.

(** Taking a statement apart down to its updates of the state. *)
Ltac preserves_step :=
  lazymatch goal with
  | |- preserves _ (bind _ _) => apply preserves_bind; [|intros ?]
  | |- preserves _ (ret _) => apply preserves_ret
  | |- preserves _ (throw _) => apply preserves_throw
  | |- preserves _ (gets _) => apply preserves_gets
  | |- preserves _ (for_loop _ _ _) => apply preserves_for_loop; intros ?
  | |- preserves _ (modify _) => apply preserves_modify
  | |- preserves _ now => apply preserves_now
  | |- preserves _ Math_random => apply preserves_Math_random
  | |- preserves _ (match ?x with _ => _ end) => destruct x
  end.

(** *** Termination requests *)

Lemma running_workers_length (c : t) :
  running_workers c = Z.of_nat (length (workers c)).
Proof. unfold running_workers, Obj.keys. now rewrite length_fmap. Qed.

(** The message [#terminateWorker] sends. *)
Definition EXIT_request (k : option string) : envelope :=
  {| type := type_null; call := None; system := Some EXIT;
     count := 0; msg_WORKER_ID := k; message := "" |}.

(** A handle after [#terminateWorker(k)]: its "exit" listeners are
    replaced by the one that only cleans up, and the request is sent. *)
Definition terminated (k : option string) (x : worker) : worker :=
  {| WORKER_ID := WORKER_ID x; BIRTH_TIME := BIRTH_TIME x;
     DEATH_TIME := DEATH_TIME x; fork_env := fork_env x;
     exit_listeners := [on_exit_terminated (property_key k)];
     sent := sent x ++ [EXIT_request k] |}.

Lemma terminateWorker_found (k : option string) (r : nat) (c : t) :
  Obj.get (property_key k) (workers c) = Some r ->
  terminateWorker k c
  = (Returned tt, set_heap (alter (terminated k) r (heap c)) c).
Proof.
  intros Hget. unfold terminateWorker, bind, gets. simpl. rewrite Hget.
  unfold update_worker, modify. simpl. f_equal. unfold set_heap. simpl.
  f_equal. rewrite !list_alter_alter_eq. now apply list_alter_ext.
Qed.

Lemma terminateWorker_missing (k : option string) (c : t) :
  Obj.get (property_key k) (workers c) = None ->
  terminateWorker k c = (Thrown TypeError, c).
Proof.
  intros Hget. unfold terminateWorker, bind, gets. simpl. now rewrite Hget.
Qed.

Lemma set_heap_set_heap h h' c : set_heap h (set_heap h' c) = set_heap h c.
Proof. reflexivity. Qed.

Lemma set_heap_id c : set_heap (heap c) c = c.
Proof. now destruct c. Qed.

(** *** Well-formed states *)

(** The registry is a dictionary (no key twice); each entry names a
    handle that exists and carries the entry's key as its identity;
    each key has the length of an identity; and each handle has one
    "exit" listener, the one [#spawnWorker] attached or the one
    [#terminateWorker] put in its place. *)
Definition tracked (c : t) (kr : string * nat) : Prop :=
  (24 <= String.length kr.1)%nat /\
  WORKER_ID <$> heap c !! kr.2 = Some kr.1.

Definition listening (x : worker) : Prop :=
  exit_listeners x = [on_exit_default] \/
  exit_listeners x = [on_exit_terminated (WORKER_ID x)].

Definition wf (c : t) : Prop :=
  NoDup (Obj.keys (workers c)) /\
  Forall (tracked c) (workers c) /\
  Forall listening (heap c).

#[global] Instance exit_listener_eq_dec : EqDecision exit_listener.
Proof. solve_decision. Defined.

#[global] Instance tracked_dec c kr : Decision (tracked c kr).
Proof. unfold tracked. apply _. Defined.

#[global] Instance listening_dec x : Decision (listening x).
Proof. unfold listening. apply _. Defined.

#[global] Instance wf_dec c : Decision (wf c).
Proof. unfold wf. apply _. Defined.

(** A decidable statement about concrete data, settled by evaluation. *)
Ltac decide_by_computation :=
  lazymatch goal with
  | |- ?P => apply (bool_decide_unpack P); vm_compute; exact I
  end.

Lemma wf_new n e b1 b2 b3 a ck rn : wf (new n e b1 b2 b3 a ck rn).
Proof. repeat split; simpl; constructor. Qed.

Lemma wf_get (c : t) (k : string) (r : nat) :
  wf c -> Obj.get k (workers c) = Some r ->
  exists x, heap c !! r = Some x /\ WORKER_ID x = k.
Proof.
  intros (_ & Hall & _) Hget. apply ObjFacts.elem_of_get in Hget.
  rewrite Forall_forall in Hall. destruct (Hall _ Hget) as [_ Hx].
  simpl in Hx. destruct (heap c !! r) as [x|]; [|discriminate].
  exists x. split; [reflexivity|]. simpl in Hx. congruence.
Qed.

Lemma wf_key_length (c : t) (k : string) :
  wf c -> k ∈ Obj.keys (workers c) -> (24 <= String.length k)%nat.
Proof.
  intros (_ & Hall & _) Hin.
  apply list_elem_of_fmap in Hin as [[k' r] [-> Hin]].
  rewrite Forall_forall in Hall. now destruct (Hall _ Hin).
Qed.

(** No identity is the name that [undefined] turns into. *)
Lemma wf_undefined (c : t) : wf c -> Obj.get "undefined" (workers c) = None.
Proof.
  intros Hwf. apply ObjFacts.get_None. intros Hin.
  pose proof (wf_key_length c _ Hwf Hin) as Hlen. simpl in Hlen. lia.
Qed.

Lemma wf_spawned (c : t) : wf c -> wf (spawned c).
Proof.
  intros (Hnd & Hall & Hls). repeat split; simpl.
  - now apply ObjFacts.NoDup_keys_set.
  - rewrite Forall_forall in *. intros [k r] Hin.
    apply ObjFacts.elem_of_set in Hin as [[= -> ->]|Hin]; unfold tracked; simpl.
    + split; [apply length_next_WORKER_ID_ge|].
      now rewrite lookup_app_r, Nat.sub_diag by lia.
    + destruct (Hall _ Hin) as [Hlen Hx]. simpl in *. split; [assumption|].
      destruct (heap c !! r) as [x|] eqn:Hr; [|discriminate].
      now rewrite (lookup_app_l_Some _ _ _ _ Hr).
  - apply Forall_app. split; [assumption|].
    constructor; [now left | constructor].
Qed.

Lemma wf_alter (c : t) (w : nat) (f : worker -> worker) :
  (forall x, WORKER_ID (f x) = WORKER_ID x) ->
  (forall x, heap c !! w = Some x -> listening x -> listening (f x)) ->
  wf c -> wf (set_heap (alter f w (heap c)) c).
Proof.
  intros Hf Hl (Hnd & Hall & Hls). repeat split; simpl; [assumption| |].
  - eapply Forall_impl; [exact Hall|]. intros [k r] [Hlen Hx].
    split; [assumption|]. simpl in *.
    destruct (decide (w = r)) as [->|Hne].
    + rewrite list_lookup_alter_eq.
      destruct (heap c !! r); simpl in *; [|discriminate].
      now rewrite Hf.
    + now rewrite list_lookup_alter_ne.
  - apply Forall_lookup. intros i y Hy.
    rewrite Forall_lookup in Hls.
    destruct (decide (w = i)) as [->|Hne].
    + rewrite list_lookup_alter_eq in Hy.
      destruct (heap c !! i) as [x|] eqn:Hi; [|discriminate].
      injection Hy as <-. apply Hl; [reflexivity | now apply (Hls i)].
    + rewrite list_lookup_alter_ne in Hy by assumption. now apply (Hls i).
Qed.

Lemma wf_died (c : t) (w : nat) (d : Z) :
  wf c -> wf (set_heap (alter (set_DEATH_TIME d) w (heap c)) c).
Proof. apply wf_alter; [reflexivity | intros x _ H; exact H]. Qed.

Lemma wf_terminated (c : t) (k : option string) (r : nat) :
  Obj.get (property_key k) (workers c) = Some r ->
  wf c -> wf (set_heap (alter (terminated k) r (heap c)) c).
Proof.
  intros Hget Hwf. apply wf_alter; [reflexivity| |assumption].
  intros x Hx _. right. simpl.
  destruct (wf_get c _ _ Hwf Hget) as (x' & Hx' & Hid). congruence.
Qed.

Lemma wf_delete (c : t) (k : string) :
  wf c -> wf (set_workers (Obj.delete k (workers c)) c).
Proof.
  intros (Hnd & Hall & Hls). repeat split; simpl; [| |assumption].
  - now apply ObjFacts.NoDup_keys_delete.
  - rewrite Forall_forall in *. intros kr Hin.
    apply ObjFacts.elem_of_delete in Hin as [Hin _]. now apply Hall.
Qed.

(** *** Properties kept by the operations *)

(** A property of the state is [stable] when it survives what every
    operation is made of: a reading of the clock or of the generator,
    an emitted event, a spawn, the date of death put on a handle, the
    termination of a registered worker, the deletion of a registry
    entry. *)
Record stable (I : t -> Prop) : Prop := {
  stable_clock : forall c n, I c -> I (set_clock_reads n c);
  stable_random : forall c n, I c -> I (set_random_reads n c);
  stable_emitted : forall c l, I c -> I (set_emitted l c);
  stable_spawned : forall c, I c -> I (spawned c);
  stable_died : forall c w d,
      I c -> I (set_heap (alter (set_DEATH_TIME d) w (heap c)) c);
  stable_terminated : forall c k r,
      Obj.get (property_key k) (workers c) = Some r ->
      I c -> I (set_heap (alter (terminated k) r (heap c)) c);
  stable_delete : forall c k, I c -> I (set_workers (Obj.delete k (workers c)) c)
}.

(** It does not look at [target_workers]. *)
Definition target_free (I : t -> Prop) : Prop :=
  forall c v, I c -> I (set_target_workers v c).

(** It does not look at the promises nor at the [nextTick] queue. *)
Definition queue_free (I : t -> Prop) : Prop :=
  forall c, I c ->
    (forall l, I (set_promises l c)) /\ (forall l, I (set_next_ticks l c)).

Lemma preserves_spawnWorker (I : t -> Prop) :
  (forall c, I c -> I (spawned c)) -> preserves I spawnWorker.
Proof. intros H c Hc. unfold exec. rewrite spawnWorker_eq. now apply H. Qed.

Ltac preserves_auto :=
  repeat first
    [ lazymatch goal with
      | |- preserves _ spawnWorker => apply preserves_spawnWorker
      | |- preserves _ (emit _) => unfold emit
      | |- preserves _ (update_worker _ _) => unfold update_worker
      | |- preserves _ (nextTick _) => unfold nextTick
      | |- preserves _ (resolve _) => unfold resolve
      | |- preserves _ new_promise => unfold new_promise
      end
    | preserves_step ].

Section Stable.
Variable I : t -> Prop.
Hypothesis HI : stable I.

Ltac stable_auto :=
  preserves_auto;
  try solve
    [ intros; first
        [ now apply (stable_clock I HI)
        | now apply (stable_random I HI)
        | now apply (stable_emitted I HI)
        | now apply (stable_spawned I HI)
        | now apply (stable_delete I HI)
        | now apply (stable_died I HI)
        | assumption ] ].

Lemma stable_spawn_loop n i :
  preserves I (for_loop n i (fun _ => spawnWorker ;; ret tt)).
Proof. stable_auto. Qed.

Lemma stable_terminateWorker k : preserves I (terminateWorker k).
Proof.
  intros c Hc. unfold exec.
  destruct (Obj.get (property_key k) (workers c)) as [r|] eqn:Hr.
  - rewrite (terminateWorker_found k r c Hr). simpl.
    now apply (stable_terminated I HI).
  - now rewrite (terminateWorker_missing k c Hr).
Qed.

Lemma stable_terminate_loop (keys : list string) n i :
  preserves I (for_loop n i (fun j => terminateWorker (keys !! j))).
Proof. preserves_auto. apply stable_terminateWorker. Qed.

Lemma stable_replace_worker w code signal :
  preserves I (replace_worker w code signal).
Proof. unfold replace_worker. stable_auto. Qed.

Lemma stable_onExit w code signal : preserves I (onExit w code signal).
Proof.
  unfold onExit. stable_auto; apply stable_replace_worker.
Qed.

Lemma stable_run_exit_listeners w code signal ls :
  preserves I (run_exit_listeners w code signal ls).
Proof.
  induction ls as [|l ls IH]; simpl; stable_auto.
  unfold run_exit_listener. stable_auto. apply stable_onExit.
Qed.

Lemma stable_worker_exit w code signal :
  preserves I (worker_exit w code signal).
Proof.
  unfold worker_exit. stable_auto. apply stable_run_exit_listeners.
Qed.

Lemma stable_start : preserves I start.
Proof. unfold start. stable_auto. Qed.

Lemma stable_refreshWorkers : preserves I refreshWorkers.
Proof. unfold refreshWorkers. stable_auto. Qed.

Lemma stable_spinUp x : target_free I -> preserves I (spinUp x).
Proof. intros HT. unfold spinUp. stable_auto. intros c. apply HT. Qed.

Lemma stable_spinDown x force :
  target_free I -> preserves I (spinDown x force).
Proof.
  intros HT. unfold spinDown. stable_auto.
  - intros c. apply HT.
  - apply stable_terminateWorker.
Qed.

Lemma stable_worker_message w msg :
  target_free I -> preserves I (worker_message w msg).
Proof.
  intros HT. unfold worker_message, onMessage, onSystemMessage.
  stable_auto; auto using stable_spinUp, stable_spinDown.
Qed.

Lemma stable_stop : queue_free I -> preserves I stop.
Proof.
  intros HQ. unfold stop. stable_auto.
  - apply stable_terminateWorker.
  - intros c Hc. now apply HQ.
  - intros c Hc. now apply HQ.
Qed.

Lemma stable_run_ticks fs : queue_free I -> preserves I (run_ticks fs).
Proof.
  intros HQ. induction fs as [|f fs IH]; simpl; stable_auto.
  unfold run_tick. stable_auto. intros c Hc. now apply HQ.
Qed.

Lemma stable_drain_ticks : queue_free I -> preserves I drain_ticks.
Proof.
  intros HQ. unfold drain_ticks. stable_auto.
  - intros c Hc. now apply HQ.
  - now apply stable_run_ticks.
Qed.

Lemma stable_run_turn e :
  target_free I -> queue_free I -> preserves I (run_turn e).
Proof.
  intros HT HQ. destruct e; simpl.
  - apply stable_start.
  - stable_auto. now apply stable_stop.
  - now apply stable_spinUp.
  - now apply stable_spinDown.
  - apply stable_refreshWorkers.
  - now apply stable_worker_message.
  - apply stable_worker_exit.
Qed.

Lemma stable_step (c : t) (e : turn) :
  target_free I -> queue_free I -> I c -> I (step c e).
Proof.
  intros HT HQ H. now apply stable_drain_ticks, stable_run_turn.
Qed.

Lemma stable_run (es : list turn) (c : t) :
  target_free I -> queue_free I -> I c -> I (run es c).
Proof.
  intros HT HQ. revert c.
  induction es as [|e es IH]; intros c H; simpl; [assumption|].
  now apply IH, stable_step.
Qed.
End Stable.

Lemma wf_stable : stable wf.
Proof.
  split; intros; try assumption.
  - now apply wf_spawned.
  - now apply wf_died.
  - now apply wf_terminated.
  - now apply wf_delete.
Qed.

Lemma wf_step (c : t) (e : turn) : wf c -> wf (step c e).
Proof.
  apply (stable_step wf wf_stable); [intros c' v H; exact H|].
  intros c' H. now split.
Qed.

(** Every state the Supervisor can be brought to is well-formed. *)
Lemma wf_run (es : list turn) (c : t) : wf c -> wf (run es c).
Proof.
  apply (stable_run wf wf_stable); [intros c' v H; exact H|].
  intros c' H. now split.
Qed.

(** *** Termination loops *)

(** The heap after the termination of the workers registered under
    [ks], in that order. *)
Fixpoint terminate_all (ks : list string) (ws : list (string * nat))
    (h : list worker) : list worker :=
  match ks with
  | [] => h
  | k :: ks' =>
      terminate_all ks' ws
        match Obj.get k ws with
        | Some r => alter (terminated (Some k)) r h
        | None => h
        end
  end.

(** The loop of [stop] and [spinDown] while it stays inside the key list. *)
Lemma terminate_loop_inside (keys : list string) (n i : nat) (c : t) :
  keys = Obj.keys (workers c) ->
  (i + n <= length keys)%nat ->
  for_loop n i (fun j => terminateWorker (keys !! j)) c
  = (Returned tt,
     set_heap (terminate_all (take n (drop i keys)) (workers c) (heap c)) c).
Proof.
  intros Hkeys. revert i c Hkeys.
  induction n as [|n IH]; intros i c Hkeys Hlen.
  - simpl. now rewrite set_heap_id.
  - cbn [for_loop].
    destruct (keys !! i) as [k|] eqn:Hk;
      [|apply lookup_ge_None in Hk; lia].
    assert (is_Some (Obj.get k (workers c))) as [r Hr].
    { eapply ObjFacts.get_keys_lookup. rewrite <- Hkeys. exact Hk. }
    erewrite bind_returned by (apply (terminateWorker_found (Some k)), Hr).
    rewrite IH; [|exact Hkeys|lia].
    simpl. rewrite set_heap_set_heap.
    rewrite (drop_S _ _ _ Hk). simpl. now rewrite Hr.
Qed.

(** The same loop when it runs past the end: the workers that are there
    are all asked to terminate, then the call throws. *)
Lemma terminate_loop_past_end (keys : list string) (n i : nat) (c : t) :
  keys = Obj.keys (workers c) ->
  Obj.get "undefined" (workers c) = None ->
  (i <= length keys < i + n)%nat ->
  for_loop n i (fun j => terminateWorker (keys !! j)) c
  = (Thrown TypeError,
     set_heap (terminate_all (drop i keys) (workers c) (heap c)) c).
Proof.
  intros Hkeys Hundef. revert i c Hkeys Hundef.
  induction n as [|n IH]; intros i c Hkeys Hundef Hlen.
  - lia.
  - cbn [for_loop].
    destruct (keys !! i) as [k|] eqn:Hk.
    + assert (is_Some (Obj.get k (workers c))) as [r Hr].
      { eapply ObjFacts.get_keys_lookup. rewrite <- Hkeys. exact Hk. }
      erewrite bind_returned by (apply (terminateWorker_found (Some k)), Hr).
      apply lookup_lt_Some in Hk as Hlt.
      rewrite IH; [|exact Hkeys|exact Hundef|lia].
      simpl. rewrite set_heap_set_heap.
      rewrite (drop_S _ _ _ Hk). simpl. now rewrite Hr.
    + erewrite bind_thrown by (apply terminateWorker_missing, Hundef).
      apply lookup_ge_None in Hk. rewrite drop_ge by assumption.
      simpl. now rewrite set_heap_id.
Qed.

(** Termination requests leave alone a handle that none of the keys
    names. *)
Lemma terminate_all_other (ks : list string) (ws : list (string * nat))
    (h : list worker) (r : nat) :
  (forall k, k ∈ ks -> Obj.get k ws <> Some r) ->
  terminate_all ks ws h !! r = h !! r.
Proof.
  revert h. induction ks as [|k ks IH]; intros h Hks; [reflexivity|].
  cbn [terminate_all].
  rewrite IH by (intros k' Hk'; apply Hks; now apply list_elem_of_further).
  destruct (Obj.get k ws) as [r'|] eqn:Hr'; [|reflexivity].
  apply list_lookup_alter_ne. intros ->.
  apply (Hks k); [apply list_elem_of_here | assumption].
Qed.

(** A handle named by one of the keys ends up terminated, provided two
    keys never name the same handle. *)
Lemma terminate_all_lookup (ks : list string) (ws : list (string * nat))
    (h : list worker) (k : string) (r : nat) (x : worker) :
  NoDup ks ->
  (forall k' , k' ∈ ks -> k' <> k -> Obj.get k' ws <> Some r) ->
  k ∈ ks ->
  Obj.get k ws = Some r ->
  h !! r = Some x ->
  terminate_all ks ws h !! r = Some (terminated (Some k) x).
Proof.
  intros Hnd. revert h. induction Hnd as [|k0 ks Hk0 Hnd IH];
    intros h Hinj Hin Hget Hx; [inversion Hin|].
  cbn [terminate_all].
  destruct (decide (k0 = k)) as [->|Hne].
  - rewrite Hget. rewrite terminate_all_other.
    + now rewrite list_lookup_alter_eq, Hx.
    + intros k' Hk'. apply Hinj; [now apply list_elem_of_further|].
      intros ->. contradiction.
  - apply IH.
    + intros k' Hk'. apply Hinj. now apply list_elem_of_further.
    + apply elem_of_cons in Hin as [?|?]; [congruence | assumption].
    + assumption.
    + destruct (Obj.get k0 ws) as [r0|] eqn:Hr0; [|assumption].
      rewrite list_lookup_alter_ne; [assumption|].
      intros ->. apply (Hinj k0); [apply list_elem_of_here | assumption..].
Qed.

(** In a well-formed state two keys never name the same handle. *)
Lemma wf_injective (c : t) (k k' : string) (r : nat) :
  wf c -> Obj.get k (workers c) = Some r ->
  Obj.get k' (workers c) = Some r -> k = k'.
Proof.
  intros Hwf H1 H2.
  destruct (wf_get c k r Hwf H1) as (x & Hx & <-).
  destruct (wf_get c k' r Hwf H2) as (x' & Hx' & <-).
  congruence.
Qed.

(** *** Exit notifications of workers under termination *)

Lemma drain_ticks_keeps (c : t) :
  heap (exec drain_ticks c) = heap c /\
  workers (exec drain_ticks c) = workers c /\
  target_workers (exec drain_ticks c) = target_workers c /\
  emitted (exec drain_ticks c) = emitted c.
Proof.
  set (I := fun c' : t =>
         heap c' = heap c /\ workers c' = workers c /\
         target_workers c' = target_workers c /\ emitted c' = emitted c).
  assert (preserves I drain_ticks) as H; [|apply H; now repeat split].
  unfold drain_ticks. preserves_auto; auto.
  induction a as [|f fs IH]; simpl; preserves_auto; auto.
  unfold run_tick. preserves_auto; auto.
Qed.

(** What the listener left by [#terminateWorker] emits. *)
Definition death_if_abnormal (w : nat) (code : option Z)
    (signal : option string) : list event :=
  if truthy signal || code_not_zero code then [death w code signal] else [].

Lemma worker_exit_terminated (c : t) (w : nat) (x : worker) (k : string)
    (code : option Z) (signal : option string) :
  heap c !! w = Some x ->
  exit_listeners x = [on_exit_terminated k] ->
  worker_exit w code signal c
  = (Returned tt,
     set_workers (Obj.delete k (workers c))
       (set_emitted (emitted c ++ death_if_abnormal w code signal) c)).
Proof.
  intros Hx Hl. unfold worker_exit, bind, gets. simpl. rewrite Hx, Hl. simpl.
  unfold bind, death_if_abnormal.
  destruct (truthy signal || code_not_zero code); simpl.
  - reflexivity.
  - rewrite app_nil_r. now destruct c.
Qed.

Lemma step_exit_terminated (c : t) (w : nat) (x : worker) (k : string)
    (code : option Z) (signal : option string) :
  heap c !! w = Some x ->
  exit_listeners x = [on_exit_terminated k] ->
  let c' := step c (notify_exit w code signal) in
  heap c' = heap c /\
  workers c' = Obj.delete k (workers c) /\
  target_workers c' = target_workers c /\
  emitted c' = emitted c ++ death_if_abnormal w code signal.
Proof.
  intros Hx Hl. unfold step, run_turn.
  destruct (drain_ticks_keeps (exec (worker_exit w code signal) c))
    as (H1 & H2 & H3 & H4).
  simpl. rewrite H1, H2, H3, H4. unfold exec.
  rewrite (worker_exit_terminated c w x k code signal Hx Hl).
  now repeat split.
Qed.

(** An exit notification: the handle, the code, the signal. *)
Definition exit_of (e : nat * option Z * option string) : turn :=
  notify_exit e.1.1 e.1.2 e.2.

(** The registry after the deletion of the keys [ks]. *)
Definition delete_all (ks : list string) (ws : list (string * nat))
  : list (string * nat) :=
  foldl (fun ws k => Obj.delete k ws) ws ks.

Lemma length_delete_all (ks : list string) (ws : list (string * nat)) :
  NoDup (Obj.keys ws) -> NoDup ks ->
  (forall k, k ∈ ks -> k ∈ Obj.keys ws) ->
  (length (delete_all ks ws) + length ks = length ws)%nat.
Proof.
  intros Hws Hks. revert ws Hws.
  induction Hks as [|k ks Hk Hks IH]; intros ws Hws Hin; simpl; [lia|].
  pose proof (ObjFacts.length_delete_in k ws Hws
                (Hin k (list_elem_of_here _ _))) as Hdel.
  assert (length (delete_all ks (Obj.delete k ws)) + length ks
          = length (Obj.delete k ws))%nat as Hrec.
  { apply IH.
    - now apply ObjFacts.NoDup_keys_delete.
    - intros k' Hk'. rewrite ObjFacts.keys_delete.
      apply list_elem_of_filter. split.
      + intros ->. contradiction.
      + apply Hin. now apply list_elem_of_further. }
  unfold delete_all in *. simpl. lia.
Qed.

Lemma run_cons (e : turn) (es : list turn) (c : t) :
  run (e :: es) c = run es (step c e).
Proof. reflexivity. Qed.

Lemma run_app (es1 es2 : list turn) (c : t) :
  run (es1 ++ es2) c = run es2 (run es1 c).
Proof. apply foldl_app. Qed.

(** Exit notifications of workers under termination, in any order:
    each deletes its key and nothing else changes in the registry. *)
Lemma run_exits_terminated (es : list (nat * option Z * option string))
    (ks : list string) (c : t) :
  Forall2 (fun e k =>
             exists x, heap c !! e.1.1 = Some x /\
                       exit_listeners x = [on_exit_terminated k]) es ks ->
  let c' := run (exit_of <$> es) c in
  heap c' = heap c /\
  workers c' = delete_all ks (workers c) /\
  target_workers c' = target_workers c.
Proof.
  intros H. revert c H. revert ks.
  induction es as [|[[w code] signal] es IH]; intros ks c H; cbv zeta.
  - inversion H; subst. now repeat split.
  - inversion H as [|e k es' ks' (x & Hx & Hl) Hrest]; subst. simpl in Hx.
    rewrite fmap_cons, run_cons.
    change (exit_of (w, code, signal)) with (notify_exit w code signal).
    destruct (step_exit_terminated c w x k code signal Hx Hl)
      as (Hh & Hw & Ht & _).
    destruct (IH ks' (step c (notify_exit w code signal))) as (Hh' & Hw' & Ht').
    { eapply Forall2_impl; [exact Hrest|].
      intros e' k' (x' & Hx' & Hl'). exists x'. now rewrite Hh. }
    cbv zeta in Hh', Hw', Ht'.
    rewrite Hh', Hw', Ht', Hh, Hw, Ht. now repeat split.
Qed.

(** *** The exit handler *)

(** The first three lines of [#onExit]: the clock is read, the date of
    death recorded, the registry entry deleted, "death" emitted. *)
Definition buried (w : nat) (x : worker) (code : option Z)
    (signal : option string) (c : t) : t :=
  set_emitted (emitted c ++ [death w code signal])
    (set_workers (Obj.delete (WORKER_ID x) (workers c))
       (set_heap (alter (set_DEATH_TIME (clock c (clock_reads c))) w (heap c))
          (set_clock_reads (S (clock_reads c)) c))).

(** The flag of the restart policy that applies to an exit. *)
Definition policy (c : t) (code : option Z) (signal : option string) : bool :=
  if truthy signal then restart_on_signal c
  else if code_not_zero code then restart_on_error c
  else restart_on_normal_exit c.

(** The decision of [#onExit], taken after the entry is deleted. *)
Definition replaces (w : nat) (x : worker) (code : option Z)
    (signal : option string) (c : t) : bool :=
  let b := buried w x code signal c in
  (running_workers b <? target_workers b)
  && (min_restart_age c <=? clock c (clock_reads c) - BIRTH_TIME x)
  && policy c code signal.

(** A spawn followed by the "restart" event. *)
Definition replaced (w : nat) (code : option Z) (signal : option string)
    (b : t) : t :=
  set_emitted
    (emitted b ++ [restart w (Some (length (heap b))) code signal])
    (spawned b).

Lemma replace_worker_eq (w : nat) (code : option Z) (signal : option string)
    (b : t) :
  replace_worker w code signal b = (Returned tt, replaced w code signal b).
Proof.
  unfold replace_worker, bind, gets, emit, modify. rewrite spawnWorker_eq.
  simpl. now rewrite ObjFacts.get_set_eq.
Qed.

Lemma onExit_eq (c : t) (w : nat) (x : worker) (code : option Z)
    (signal : option string) :
  heap c !! w = Some x ->
  onExit w code signal c
  = (Returned tt,
     if replaces w x code signal c
     then replaced w code signal (buried w x code signal c)
     else buried w x code signal c).
Proof.
  intros Hx. unfold onExit, bind, gets, now, update_worker, modify, emit.
  simpl. rewrite list_lookup_alter_eq, Hx. simpl.
  unfold replaces, policy. simpl.
  destruct (_ <? _); simpl; [|reflexivity].
  destruct (truthy signal); simpl.
  - destruct (_ <=? _); simpl; [|reflexivity].
    destruct (restart_on_signal c); [apply replace_worker_eq | reflexivity].
  - destruct (code_not_zero code); simpl.
    + destruct (_ <=? _); simpl; [|reflexivity].
      destruct (restart_on_error c); [apply replace_worker_eq | reflexivity].
    + destruct (_ <=? _); simpl; [|reflexivity].
      destruct (restart_on_normal_exit c);
        [apply replace_worker_eq | reflexivity].
Qed.

(** The events emitted between two states. *)
Definition new_events (c c' : t) : list event :=
  drop (length (emitted c)) (emitted c').

Lemma new_events_app (c c' : t) (l : list event) :
  emitted c' = emitted c ++ l -> new_events c c' = l.
Proof. unfold new_events. intros ->. now rewrite drop_app_length. Qed.

Lemma running_workers_buried (c : t) (w : nat) (x : worker) code signal :
  NoDup (Obj.keys (workers c)) ->
  WORKER_ID x ∈ Obj.keys (workers c) ->
  running_workers (buried w x code signal c) = running_workers c - 1.
Proof.
  intros Hnd Hin. rewrite !running_workers_length. simpl.
  pose proof (ObjFacts.length_delete_in _ _ Hnd Hin). lia.
Qed.

(** *** [spinDown] with [force] *)

Lemma spinDown_force_inside (c : t) (n : Z) :
  n <= running_workers c ->
  spinDown n true c
  = (Returned tt,
     set_heap
       (terminate_all (take (Z.to_nat n) (Obj.keys (workers c)))
          (workers c) (heap c))
       (set_target_workers (target_workers c - n) c)).
Proof.
  intros Hn. unfold spinDown, bind, modify, gets. simpl.
  rewrite terminate_loop_inside; [reflexivity..|].
  simpl. unfold running_workers in Hn. lia.
Qed.

Lemma spinDown_force_outside (c : t) (x : Z) :
  wf c ->
  running_workers c < x ->
  spinDown x true c
  = (Thrown TypeError,
     set_heap
       (terminate_all (Obj.keys (workers c)) (workers c) (heap c))
       (set_target_workers (target_workers c - x) c)).
Proof.
  intros Hwf Hx. unfold spinDown, bind, modify, gets. simpl.
  rewrite terminate_loop_past_end; [reflexivity..| |].
  - now apply wf_undefined.
  - simpl. unfold running_workers in Hx. lia.
Qed.

(** C10.  In a well-formed state, [spinDown(x, true)] with [x] above the
    number of registered workers throws (the loop reads [keys[i]] past
    the end, and [#terminateWorker(undefined)] calls a method of
    [undefined]); by then [target_workers] has been decreased by [x]
    and every registered worker has been asked to terminate.  With
    [x] at most the number of registered workers the call returns. *)
Theorem spinDown_force_past_end (c : t) (x : Z) :
  wf c ->
  (running_workers c < x ->
   spinDown x true c
   = (Thrown TypeError,
      set_heap
        (terminate_all (Obj.keys (workers c)) (workers c) (heap c))
        (set_target_workers (target_workers c - x) c))) /\
  (x <= running_workers c -> (spinDown x true c).1 = Returned tt).
Proof.
  intros Hwf. split; intros Hx.
  - now apply spinDown_force_outside.
  - now rewrite spinDown_force_inside.
Qed.

(** The workers [spinDown(n, true)] picks: the first [n] entries. *)
Definition doomed (n : Z) (c : t) : list (string * nat) :=
  take (Z.to_nat n) (workers c).

Lemma doomed_keys (n : Z) (c : t) :
  (doomed n c).*1 = take (Z.to_nat n) (Obj.keys (workers c)).
Proof. unfold doomed, Obj.keys. now rewrite fmap_take. Qed.

Lemma doomed_subseteq (n : Z) (c : t) kr :
  kr ∈ doomed n c -> kr ∈ workers c.
Proof. unfold doomed. intros H. eapply subseteq_take, H. Qed.

Lemma wf_elem_get (c : t) k r :
  wf c -> (k, r) ∈ workers c -> Obj.get k (workers c) = Some r.
Proof. intros [Hnd _] Hin. now apply ObjFacts.get_elem_of. Qed.

Lemma doomed_terminated (c : t) (n : Z) (k : string) (r : nat) (x : worker) :
  wf c ->
  (k, r) ∈ doomed n c ->
  heap c !! r = Some x ->
  terminate_all (doomed n c).*1 (workers c) (heap c) !! r
  = Some (terminated (Some k) x).
Proof.
  intros Hwf Hin Hx.
  pose proof (wf_elem_get c k r Hwf (doomed_subseteq n c _ Hin)) as Hget.
  apply terminate_all_lookup; try assumption.
  - rewrite doomed_keys. destruct Hwf as [Hnd _].
    eapply sublist_NoDup; [exact Hnd | apply sublist_take].
  - intros k' _ Hne Hget'. apply Hne.
    now apply (wf_injective c k' k r).
  - apply list_elem_of_fmap. now exists (k, r).
Qed.

Lemma not_doomed_untouched (c : t) (n : Z) (r : nat) :
  wf c ->
  r ∉ (doomed n c).*2 ->
  terminate_all (doomed n c).*1 (workers c) (heap c) !! r = heap c !! r.
Proof.
  intros Hwf Hr. apply terminate_all_other.
  intros k Hk Hget. apply Hr.
  apply list_elem_of_fmap in Hk as [[k' r'] [-> Hin]]. simpl in Hget.
  pose proof (wf_elem_get c k' r' Hwf (doomed_subseteq n c _ Hin)) as Hget'.
  assert (r' = r) as -> by congruence.
  apply list_elem_of_fmap. now exists (k', r).
Qed.

(** The key under which a handle is registered is its identity. *)
Definition key_of (c : t) (w : nat) : string :=
  default "" (WORKER_ID <$> heap c !! w).

Lemma key_of_doomed (c : t) (n : Z) (r : nat) :
  wf c -> r ∈ (doomed n c).*2 ->
  (key_of c r, r) ∈ doomed n c /\ key_of c r ∈ Obj.keys (workers c).
Proof.
  intros Hwf Hr. apply list_elem_of_fmap in Hr as [[k r'] [-> Hin]]. simpl.
  pose proof (doomed_subseteq n c _ Hin) as Hin'.
  destruct (wf_get c k r' Hwf (wf_elem_get c k r' Hwf Hin'))
    as (x & Hx & <-).
  unfold key_of. rewrite Hx. simpl. split; [assumption|].
  apply list_elem_of_fmap. now exists (WORKER_ID x, r').
Qed.

Lemma key_of_inj (c : t) (n : Z) (r r' : nat) :
  wf c -> r ∈ (doomed n c).*2 -> r' ∈ (doomed n c).*2 ->
  key_of c r = key_of c r' -> r = r'.
Proof.
  intros Hwf Hr Hr' Heq.
  destruct (key_of_doomed c n r Hwf Hr) as [H1 _].
  destruct (key_of_doomed c n r' Hwf Hr') as [H2 _].
  rewrite <- Heq in H2.
  pose proof (wf_elem_get c _ _ Hwf (doomed_subseteq n c _ H1)).
  pose proof (wf_elem_get c _ _ Hwf (doomed_subseteq n c _ H2)).
  congruence.
Qed.

(** C3, as the code has it.  [spinDown(n, true)] on at least [n]
    registered workers returns with [target_workers] decreased by [n]
    and the registry as it was: the first [n] registered workers have
    their "exit" listeners replaced and are sent the EXIT request, and
    the running count does not move.  It then goes down by one with
    each exit notification of one of these workers, in any order, and
    no replacement is created. *)
Theorem spinDown_force_is_graceful (c : t) (n : Z) :
  wf c ->
  0 <= n <= running_workers c ->
  let c' := exec (spinDown n true) c in
  (spinDown n true c).1 = Returned tt /\
  target_workers c' = target_workers c - n /\
  workers c' = workers c /\
  running_workers c' = running_workers c /\
  (forall k r x,
      (k, r) ∈ doomed n c -> heap c !! r = Some x ->
      heap c' !! r = Some (terminated (Some k) x)) /\
  (forall r, r ∉ (doomed n c).*2 -> heap c' !! r = heap c !! r) /\
  (forall es : list (nat * option Z * option string),
      NoDup (es.*1.*1) ->
      (forall e, e ∈ es -> e.1.1 ∈ (doomed n c).*2) ->
      let c'' := run (exit_of <$> es) c' in
      running_workers c'' = running_workers c - Z.of_nat (length es) /\
      heap c'' = heap c' /\
      target_workers c'' = target_workers c - n).
Proof.
  intros Hwf [Hn0 Hn] c'. subst c'. unfold exec.
  rewrite spinDown_force_inside by assumption. simpl.
  rewrite <- doomed_keys.
  split; [reflexivity|]. split; [reflexivity|]. split; [reflexivity|].
  split; [reflexivity|].
  split; [intros k r x; now apply doomed_terminated|].
  split; [intros r; now apply not_doomed_untouched|].
  intros es Hnd Hes.
  set (c' := set_heap _ _).
  set (ks := key_of c <$> es.*1.*1).
  assert (Forall2 (fun e k =>
             exists x, heap c' !! e.1.1 = Some x /\
                       exit_listeners x = [on_exit_terminated k]) es ks)
    as Hall.
  { subst ks. rewrite <- !list_fmap_compose. apply Forall2_fmap_r.
    apply Forall_Forall2_diag. apply Forall_forall. intros e He. simpl.
    destruct (key_of_doomed c n _ Hwf (Hes e He)) as [Hin _].
    pose proof (doomed_subseteq n c _ Hin) as Hin'.
    destruct (wf_get c _ _ Hwf (wf_elem_get c _ _ Hwf Hin'))
      as (x & Hx & Hid).
    exists (terminated (Some (key_of c e.1.1)) x). split; [|reflexivity].
    subst c'. simpl. now apply doomed_terminated. }
  destruct (run_exits_terminated es ks c' Hall) as (Hh & Hw & Ht).
  cbv zeta in *. rewrite Hh, Ht.
  split; [|split; reflexivity].
  rewrite !running_workers_length, Hw. subst c'. simpl.
  assert (length (delete_all ks (workers c)) + length ks
          = length (workers c))%nat as Hlen.
  { destruct Hwf as [Hkeys Htr]. apply length_delete_all.
    - exact Hkeys.
    - subst ks. apply NoDup_fmap_2_strong; [|exact Hnd].
      intros r r' Hr Hr'. apply (key_of_inj c n); try split; try assumption.
      + apply list_elem_of_fmap in Hr as [p [-> Hp]].
        apply list_elem_of_fmap in Hp as [e [-> He]]. now apply Hes.
      + apply list_elem_of_fmap in Hr' as [p [-> Hp]].
        apply list_elem_of_fmap in Hp as [e [-> He]]. now apply Hes.
    - intros k Hk. subst ks.
      apply list_elem_of_fmap in Hk as [r [-> Hr]].
      apply list_elem_of_fmap in Hr as [p [-> Hp]].
      apply list_elem_of_fmap in Hp as [e [-> He]].
      now destruct (key_of_doomed c n _ (conj Hkeys Htr) (Hes e He)). }
  subst ks. rewrite !length_fmap in Hlen. lia.
Qed.

Lemma wf_pool (n : Z) : wf (Scenario.pool n).
Proof. apply wf_step, wf_new. Qed.

(** C3, as stated, fails: after [spinDown(2, true)] on a pool of five
    the running count is still five, and the first worker has been sent
    the EXIT request. *)
Lemma spinDown_force_counterexample :
  let c := Scenario.pool 5 in
  let c' := exec (spinDown 2 true) c in
  running_workers c = 5 /\
  (spinDown 2 true c).1 = Returned tt /\
  running_workers c' = 5 /\
  running_workers c' <> 3 /\
  sent <$> heap c' !! 0%nat
  = Some [EXIT_request (Some "6553f1000001020304050607")].
Proof. vm_compute. repeat split; congruence. Qed.

Lemma spinDown_force_is_graceful_witness :
  wf (Scenario.pool 5) /\
  0 <= 2 <= running_workers (Scenario.pool 5) /\
  running_workers (exec (spinDown 2 true) (Scenario.pool 5)) = 5 /\
  running_workers
    (run [notify_exit 1 (Some 0) None; notify_exit 0 (Some 0) None]
       (exec (spinDown 2 true) (Scenario.pool 5))) = 3.
Proof.
  assert (wf (Scenario.pool 5)) as Hwf by (decide_by_computation).
  assert (0 <= 2 <= running_workers (Scenario.pool 5)) as Hn
    by (vm_compute; split; discriminate).
  destruct (spinDown_force_is_graceful (Scenario.pool 5) 2 Hwf Hn)
    as (_ & _ & _ & Hrun & _ & _ & Hexits).
  split; [exact Hwf|]. split; [exact Hn|]. split; [exact Hrun|].
  apply (Hexits [(1%nat, Some 0, None); (0%nat, Some 0, None)]).
  - decide_by_computation.
  - apply Forall_forall. decide_by_computation.
Defined.

Lemma spinDown_force_past_end_witness :
  wf (Scenario.pool 5) /\
  (spinDown 7 true (Scenario.pool 5)).1 = Thrown TypeError /\
  target_workers (exec (spinDown 7 true) (Scenario.pool 5)) = -2 /\
  (spinDown 5 true (Scenario.pool 5)).1 = Returned tt.
Proof.
  assert (wf (Scenario.pool 5)) as Hwf by (decide_by_computation).
  destruct (spinDown_force_past_end (Scenario.pool 5) 7 Hwf) as [Hthrow _].
  destruct (spinDown_force_past_end (Scenario.pool 5) 5 Hwf) as [_ Hsafe].
  split; [exact Hwf|]. unfold exec.
  rewrite Hthrow by (vm_compute; reflexivity).
  split; [reflexivity|]. split; [reflexivity|].
  apply Hsafe. vm_compute. discriminate.
Defined.

(** C1.  A tracked worker leaves with a nonzero code and no signal.
    [#onExit] returns; a replacement is spawned, and "restart" emitted,
    exactly when the registry, the entry once removed, is below
    [target_workers], [restart_on_error] is set and the worker lived at
    least [min_restart_age].  Then the events emitted are "death" and
    one "restart" carrying the old handle, the new one, the code and
    the signal, and the new handle is registered.  Otherwise "death" is
    all that is emitted, no handle is created, and the running count is
    one less than before. *)
Theorem onExit_error_restart_iff (c : t) (w : nat) (x : worker) (code : Z) :
  wf c ->
  heap c !! w = Some x ->
  WORKER_ID x ∈ Obj.keys (workers c) ->
  code <> 0 ->
  let age := clock c (clock_reads c) - BIRTH_TIME x in
  let c' := exec (onExit w (Some code) None) c in
  let eligible :=
    running_workers c - 1 < target_workers c /\
    restart_on_error c = true /\
    min_restart_age c <= age in
  (onExit w (Some code) None c).1 = Returned tt /\
  (length (heap c') = S (length (heap c)) <-> eligible) /\
  (new_events c c'
   = [death w (Some code) None;
      restart w (Some (length (heap c))) (Some code) None] <-> eligible) /\
  (eligible ->
   exists y, heap c' !! length (heap c) = Some y /\
             Obj.get (WORKER_ID y) (workers c') = Some (length (heap c)) /\
             exit_listeners y = [on_exit_default]) /\
  (~ eligible ->
   new_events c c' = [death w (Some code) None] /\
   length (heap c') = length (heap c) /\
   running_workers c' = running_workers c - 1).
Proof.
  intros [Hnd _] Hx Hin Hcode age c' eligible. subst c'. unfold exec.
  rewrite (onExit_eq c w x (Some code) None Hx). simpl.
  assert (replaces w x (Some code) None c = true <-> eligible) as Hiff.
  { unfold replaces, policy, eligible, age.
    rewrite running_workers_buried by assumption.
    assert (code_not_zero (Some code) = true) as ->
      by (destruct code; simpl; congruence).
    cbn [truthy target_workers buried set_emitted set_workers set_heap
           set_clock_reads].
    rewrite !andb_true_iff, Z.ltb_lt, Z.leb_le. tauto. }
  split; [reflexivity|].
  destruct (replaces w x (Some code) None c) eqn:Hrep.
  - assert eligible as Hel by now apply Hiff.
    split; [|split; [|split]].
    + simpl. rewrite length_app, length_alter. simpl.
      split; [intros _; exact Hel | intros _; lia].
    + split; [intros _; exact Hel | intros _].
      apply new_events_app. simpl. rewrite length_alter.
      now rewrite <- app_assoc.
    + intros _. eexists. simpl. split.
      * rewrite lookup_app_r by (rewrite length_alter; lia).
        rewrite length_alter, Nat.sub_diag. reflexivity.
      * simpl. rewrite length_alter.
        split; [apply ObjFacts.get_set_eq | reflexivity].
    + intros Hne. contradiction.
  - assert (~ eligible) as Hel
      by (intros H; apply Hiff in H; discriminate).
    split; [|split; [|split]].
    + simpl. rewrite length_alter. split; [lia | intros H; contradiction].
    + split; [|intros H; contradiction].
      unfold new_events. simpl. rewrite drop_app_length. discriminate.
    + intros H. contradiction.
    + intros _. split; [|split].
      * apply new_events_app. reflexivity.
      * simpl. apply length_alter.
      * now apply running_workers_buried.
Qed.

(** A pool of one worker whose worker dies of an error after a second,
    and a pool whose worker dies at once. *)
Lemma onExit_error_restart_iff_witness :
  wf (Scenario.pool 1) /\
  new_events (Scenario.pool 1)
    (exec (onExit 0 (Some 1) None) (Scenario.pool 1))
  = [death 0 (Some 1) None;
     restart 0 (Some (length (heap (Scenario.pool 1)))) (Some 1) None] /\
  wf (Scenario.crashing_pool 1) /\
  running_workers (exec (onExit 0 (Some 1) None) (Scenario.crashing_pool 1))
  = running_workers (Scenario.crashing_pool 1) - 1.
Proof.
  assert (wf (Scenario.pool 1)) as Hwf by decide_by_computation.
  assert (wf (Scenario.crashing_pool 1)) as Hwf' by decide_by_computation.
  assert (heap (Scenario.pool 1) !! 0%nat
          = Some (next_worker (Scenario.cluster 1))) as Hx
    by reflexivity.
  assert (heap (Scenario.crashing_pool 1) !! 0%nat
          = Some (next_worker (Scenario.crashing 1))) as Hx'
    by reflexivity.
  assert (WORKER_ID (next_worker (Scenario.cluster 1))
          ∈ Obj.keys (workers (Scenario.pool 1))) as Hin
    by decide_by_computation.
  assert (WORKER_ID (next_worker (Scenario.crashing 1))
          ∈ Obj.keys (workers (Scenario.crashing_pool 1))) as Hin'
    by decide_by_computation.
  assert (1 <> 0) as Hcode by discriminate.
  pose proof (onExit_error_restart_iff _ 0 _ 1 Hwf Hx Hin Hcode)
    as (_ & _ & Hev & _ & _).
  pose proof (onExit_error_restart_iff _ 0 _ 1 Hwf' Hx' Hin' Hcode)
    as (_ & _ & _ & _ & Hno).
  split; [exact Hwf|]. split; [|split; [exact Hwf'|]].
  - apply (proj2 Hev). vm_compute. repeat split; discriminate.
  - apply Hno. vm_compute. intros (_ & _ & H). now apply H.
Defined.

(** *** A record that left the registry stays out *)

(** The handle [w] exists and no registry entry names it. *)
Definition gone (w : nat) (c : t) : Prop :=
  (w < length (heap c))%nat /\ w ∉ (workers c).*2.

Lemma gone_stable (w : nat) : stable (gone w).
Proof.
  split; try (intros; assumption).
  - intros c [Hlt Hout]. split; simpl.
    + rewrite length_app. simpl. lia.
    + intros Hin. apply list_elem_of_fmap in Hin as [[k r] [-> Hin]].
      apply ObjFacts.elem_of_set in Hin as [[= _ ->]|Hin]; simpl in *; [lia|].
      apply Hout. apply list_elem_of_fmap. now exists (k, r).
  - intros c r d [Hlt Hout]. split; simpl; [now rewrite length_alter | assumption].
  - intros c k r _ [Hlt Hout]. split; simpl; [now rewrite length_alter | assumption].
  - intros c k [Hlt Hout]. split; simpl; [assumption|].
    intros Hin. apply list_elem_of_fmap in Hin as [[k' r] [-> Hin]].
    apply ObjFacts.elem_of_delete in Hin as [Hin _].
    apply Hout. apply list_elem_of_fmap. now exists (k', r).
Qed.

Lemma gone_run (w : nat) (es : list turn) (c : t) :
  gone w c -> gone w (run es c).
Proof.
  apply (stable_run _ (gone_stable w)).
  - intros c' v H. exact H.
  - intros c' H. now split.
Qed.

(** Deleting the key of a tracked handle leaves no entry that names it. *)
Lemma gone_buried (c : t) (w : nat) (x : worker) :
  wf c -> heap c !! w = Some x ->
  w ∉ (Obj.delete (WORKER_ID x) (workers c)).*2.
Proof.
  intros Hwf Hx Hin. apply list_elem_of_fmap in Hin as [[k r] [-> Hin]].
  apply ObjFacts.elem_of_delete in Hin as [Hin Hne]. simpl in *.
  destruct (wf_get c k r Hwf (wf_elem_get c k r Hwf Hin)) as (x' & Hx' & Hk).
  congruence.
Qed.

Lemma worker_exit_default (c : t) (w : nat) (x : worker)
    (code : option Z) (signal : option string) :
  heap c !! w = Some x ->
  exit_listeners x = [on_exit_default] ->
  worker_exit w code signal c
  = (Returned tt,
     if replaces w x code signal c
     then replaced w code signal (buried w x code signal c)
     else buried w x code signal c).
Proof.
  intros Hx Hl. unfold worker_exit, bind, gets. simpl. rewrite Hx, Hl. simpl.
  unfold bind. now rewrite (onExit_eq c w x code signal Hx).
Qed.

(** C5, as the code has it.  The exit notification of a tracked worker
    takes its record out of the registry within that turn, and no later
    turn puts it back.  With the listener of [#spawnWorker] in place the
    date of death is set and "death" is emitted once, followed at most
    by the "restart" that announces a handle created anew.  With the
    listener of [#terminateWorker] in place nothing is written on the
    handle, "death" is emitted only for a nonzero code or a signal, and
    the running count goes down by one. *)
Theorem exit_removes_record (c : t) (w : nat) (x : worker)
    (code : option Z) (signal : option string) :
  wf c ->
  heap c !! w = Some x ->
  Obj.get (WORKER_ID x) (workers c) = Some w ->
  let c' := step c (notify_exit w code signal) in
  (w ∉ (workers c').*2) /\
  (forall es, w ∉ (workers (run es c')).*2) /\
  (exit_listeners x = [on_exit_default] ->
   DEATH_TIME <$> heap c' !! w = Some (Some (clock c (clock_reads c))) /\
   (new_events c c' = [death w code signal] /\
    length (heap c') = length (heap c) \/
    new_events c c'
    = [death w code signal;
       restart w (Some (length (heap c))) code signal] /\
    length (heap c') = S (length (heap c)) /\
    length (heap c) <> w)) /\
  (exit_listeners x <> [on_exit_default] ->
   exit_listeners x = [on_exit_terminated (WORKER_ID x)] /\
   heap c' = heap c /\
   new_events c c' = death_if_abnormal w code signal /\
   running_workers c' = running_workers c - 1).
Proof.
  intros Hwf Hx Hget c'.
  pose proof (lookup_lt_Some _ _ _ Hx) as Hlt.
  assert (listening x) as Hl.
  { destruct Hwf as (_ & _ & Hls). rewrite Forall_lookup in Hls.
    now apply (Hls w). }
  assert (gone w c') as Hgone.
  { subst c'. unfold step, run_turn.
    destruct (drain_ticks_keeps (exec (worker_exit w code signal) c))
      as (H1 & H2 & _). unfold gone. rewrite H1, H2. clear H1 H2.
    unfold exec. destruct Hl as [Hl|Hl].
    - rewrite (worker_exit_default c w x code signal Hx Hl). simpl.
      destruct (replaces w x code signal c); simpl.
      + rewrite length_app, length_alter. split; [lia|].
        intros Hin. apply list_elem_of_fmap in Hin as [[k r] [-> Hin]].
        apply ObjFacts.elem_of_set in Hin as [[= _ Hr]|Hin]; simpl in *.
        * rewrite ?length_alter in Hr. lia.
        * apply (gone_buried c r x Hwf Hx).
          apply list_elem_of_fmap. now exists (k, r).
      + rewrite length_alter. split; [lia|]. now apply gone_buried.
    - rewrite (worker_exit_terminated c w x _ code signal Hx Hl). simpl.
      split; [lia|]. now apply gone_buried. }
  split; [apply Hgone|]. split; [intros es; now apply gone_run|].
  subst c'. unfold step, run_turn.
  destruct (drain_ticks_keeps (exec (worker_exit w code signal) c))
    as (H1 & H2 & H3 & H4).
  split.
  - intros Hdef. rewrite H1. unfold new_events. rewrite H4. unfold exec.
    rewrite (worker_exit_default c w x code signal Hx Hdef). simpl.
    destruct (replaces w x code signal c); simpl.
    + rewrite lookup_app_l by (rewrite length_alter; lia).
      rewrite list_lookup_alter_eq, Hx. split; [reflexivity|].
      right. rewrite length_alter, <- app_assoc, drop_app_length.
      rewrite length_app, length_alter. simpl.
      repeat split; lia.
    + rewrite list_lookup_alter_eq, Hx. split; [reflexivity|].
      left. now rewrite drop_app_length, length_alter.
  - intros Hndef. destruct Hl as [Hl|Hl]; [contradiction|].
    split; [exact Hl|]. rewrite H1. unfold new_events. rewrite H4.
    rewrite !running_workers_length, H2. unfold exec.
    rewrite (worker_exit_terminated c w x _ code signal Hx Hl). simpl.
    split; [reflexivity|]. split; [now rewrite drop_app_length|].
    destruct Hwf as (Hnd & _).
    assert (WORKER_ID x ∈ Obj.keys (workers c)) as Hin
      by (apply ObjFacts.get_is_Some; eauto).
    pose proof (ObjFacts.length_delete_in _ _ Hnd Hin). lia.
Qed.

(** C5, as stated, fails: a worker asked to terminate that leaves with
    code 0 is taken out of the registry, but no "death" is emitted and
    no date of death is set. *)
Lemma exit_after_terminate_counterexample :
  let c := step (Scenario.pool 1) (call_spinDown 1 true) in
  let c' := step c (notify_exit 0 (Some 0) None) in
  workers c = [("6553f1000001020304050607", 0%nat)] /\
  workers c' = [] /\
  emitted c' = [] /\
  DEATH_TIME <$> heap c' !! 0%nat = Some None.
Proof. vm_compute. repeat split. Qed.

Lemma exit_removes_record_witness :
  wf (Scenario.pool 1) /\
  (0%nat ∉
     (workers (step (Scenario.pool 1) (notify_exit 0 (Some 1) None))).*2) /\
  DEATH_TIME <$>
    heap (step (Scenario.pool 1) (notify_exit 0 (Some 1) None)) !! 0%nat
  = Some (Some 1700000002000).
Proof.
  assert (wf (Scenario.pool 1)) as Hwf by decide_by_computation.
  destruct (exit_removes_record (Scenario.pool 1) 0
              (next_worker (Scenario.cluster 1)) (Some 1) None Hwf)
    as (Hout & _ & Hdef & _); [reflexivity | reflexivity |].
  split; [exact Hwf|]. split; [exact Hout|].
  now destruct (Hdef eq_refl) as [Hdeath _].
Defined.

(** *** [stop] and its promise *)

Lemma stop_eq (c : t) :
  stop c
  = (Returned (length (promises c)),
     set_next_ticks (next_ticks c ++ [stop_check (length (promises c))])
       (set_promises (promises c ++ [Pending])
          (set_heap
             (terminate_all (Obj.keys (workers c)) (workers c) (heap c))
             c))).
Proof.
  unfold stop, bind, gets. simpl.
  rewrite terminate_loop_inside; [|reflexivity|apply Nat.le_refl].
  simpl. now rewrite take_ge by apply Nat.le_refl.
Qed.

(** The promises and the [nextTick] queue are touched by [stop] and by
    the emptying of the queue only. *)
Definition queue_is (P : list promise_state) (Q : list tick) (c : t) : Prop :=
  promises c = P /\ next_ticks c = Q.

Lemma queue_is_stable P Q : stable (queue_is P Q).
Proof. split; intros; assumption. Qed.

Lemma queue_is_run_turn (e : turn) (c : t) :
  e <> call_stop ->
  promises (exec (run_turn e) c) = promises c /\
  next_ticks (exec (run_turn e) c) = next_ticks c.
Proof.
  intros He.
  assert (preserves (queue_is (promises c) (next_ticks c)) (run_turn e))
    as H; [|apply H; now split].
  pose proof (queue_is_stable (promises c) (next_ticks c)) as HS.
  assert (target_free (queue_is (promises c) (next_ticks c))) as HT
    by (intros c' v H; exact H).
  destruct e; simpl; try contradiction.
  - now apply stable_start.
  - now apply stable_spinUp.
  - now apply stable_spinDown.
  - now apply stable_refreshWorkers.
  - now apply stable_worker_message.
  - now apply stable_worker_exit.
Qed.

Lemma drain_ticks_empty (c : t) :
  next_ticks c = [] -> exec drain_ticks c = c.
Proof.
  intros H. unfold exec, drain_ticks, bind, gets, modify. simpl.
  rewrite H. simpl. destruct c; simpl in *. now subst.
Qed.

(** The check queued by [stop], run with the registry as it is. *)
Lemma drain_ticks_stop_check (c : t) (p : nat) :
  next_ticks c = [stop_check p] ->
  exec drain_ticks c
  = set_promises
      (if decide (length (Obj.keys (workers c)) = 0%nat)
       then <[p := Fulfilled]> (promises c) else promises c)
      (set_next_ticks [] c).
Proof.
  intros H. unfold exec, drain_ticks, bind, gets, modify. simpl.
  rewrite H. simpl. unfold bind, gets. simpl.
  destruct (decide (length (Obj.keys (workers c)) = 0%nat)); reflexivity.
Qed.

(** The state [stop] leaves, and the turn of [stop] as a whole. *)
Definition stopped (c : t) : t :=
  set_next_ticks (next_ticks c ++ [stop_check (length (promises c))])
    (set_promises (promises c ++ [Pending])
       (set_heap
          (terminate_all (Obj.keys (workers c)) (workers c) (heap c))
          c)).

Lemma step_stop (c : t) :
  next_ticks c = [] ->
  step c call_stop
  = set_promises
      (if decide (length (Obj.keys (workers c)) = 0%nat)
       then <[length (promises c) := Fulfilled]> (promises c ++ [Pending])
       else promises c ++ [Pending])
      (set_next_ticks [] (stopped c)).
Proof.
  intros Hq. unfold step, run_turn.
  assert (exec (stop ;; ret tt) c = stopped c) as ->
    by (unfold exec, bind; now rewrite stop_eq).
  apply (drain_ticks_stop_check (stopped c) (length (promises c))).
  simpl. now rewrite Hq.
Qed.

(** The promise [p] is pending and nothing is queued. *)
Definition pending (p : nat) (c : t) : Prop :=
  promises c !! p = Some Pending /\ next_ticks c = [].

Lemma pending_step (p : nat) (c : t) (e : turn) :
  pending p c -> pending p (step c e).
Proof.
  intros [Hp Hq].
  assert (e = call_stop \/ e <> call_stop) as [->|He]
    by (destruct e; (now left) || (right; discriminate)).
  - rewrite step_stop by assumption.
    pose proof (lookup_lt_Some _ _ _ Hp) as Hlt.
    split; [|reflexivity]. simpl.
    destruct (decide _).
    + rewrite list_lookup_insert_ne by lia. now apply lookup_app_l_Some.
    + now apply lookup_app_l_Some.
  - unfold step. destruct (queue_is_run_turn e c He) as [HP HQ].
    rewrite drain_ticks_empty by congruence.
    split; congruence.
Qed.

Lemma pending_run (p : nat) (es : list turn) (c : t) :
  pending p c -> pending p (run es c).
Proof.
  revert c. induction es as [|e es IH]; intros c H; simpl; [assumption|].
  now apply IH, pending_step.
Qed.

(** C2 fails on the code.  [stop()] on a registry that is not empty
    returns a promise that is still pending once the queued check has
    run, and that no later turn fulfils: neither the exit notifications
    of the workers, in any number and order, nor anything else. *)
Theorem stop_promise_never_fulfilled (c : t) :
  workers c <> [] ->
  next_ticks c = [] ->
  let p := length (promises c) in
  (stop c).1 = Returned p /\
  forall es, promises (run es (step c call_stop)) !! p = Some Pending.
Proof.
  intros Hws Hq p. split; [now rewrite stop_eq|].
  intros es. apply pending_run.
  rewrite step_stop by assumption.
  split; [|reflexivity]. simpl.
  destruct (decide _) as [Hlen|_].
  - unfold Obj.keys in Hlen. rewrite length_fmap in Hlen.
    destruct (workers c); [contradiction | discriminate].
  - subst p. now rewrite lookup_app_r, Nat.sub_diag by lia.
Qed.


(** One worker: [start()], [stop()], then the worker's exit.  The
    registry is empty and the promise is pending for good. *)
Lemma stop_promise_never_fulfilled_witness :
  workers (Scenario.pool 1) <> [] /\
  next_ticks (Scenario.pool 1) = [] /\
  workers (run [notify_exit 0 (Some 0) None]
             (step (Scenario.pool 1) call_stop)) = [] /\
  promises (run [notify_exit 0 (Some 0) None]
              (step (Scenario.pool 1) call_stop))
    !! length (promises (Scenario.pool 1)) = Some Pending.
Proof.
  assert (workers (Scenario.pool 1) <> []) as Hws by discriminate.
  assert (next_ticks (Scenario.pool 1) = []) as Hq by reflexivity.
  destruct (stop_promise_never_fulfilled (Scenario.pool 1) Hws Hq)
    as [_ Hp].
  split; [exact Hws|]. split; [exact Hq|].
  split; [vm_compute; reflexivity|].
  exact (Hp [notify_exit 0 (Some 0) None]).
Defined.

(** *** [target_workers] *)

Definition target_is (T : Z) (c : t) : Prop := target_workers c = T.

Lemma target_is_stable T : stable (target_is T).
Proof. split; intros; assumption. Qed.

Lemma target_is_queue_free T : queue_free (target_is T).
Proof. intros c H. now split. Qed.

Lemma target_spinUp (c : t) (x : Z) :
  target_workers (exec (spinUp x) c) = target_workers c + x.
Proof.
  unfold spinUp. rewrite exec_bind. simpl.
  now apply (stable_spawn_loop _ (target_is_stable (target_workers c + x))).
Qed.

Lemma target_spinDown (c : t) (x : Z) (force : bool) :
  target_workers (exec (spinDown x force) c) = target_workers c - x.
Proof.
  unfold spinDown. rewrite exec_bind. simpl.
  destruct force; [|reflexivity].
  rewrite exec_bind. simpl.
  now apply (stable_terminate_loop _ (target_is_stable (target_workers c - x))).
Qed.

(** What a turn adds to [target_workers]. *)
Definition target_change (e : turn) (c : t) : Z :=
  match e with
  | call_spinUp x => x
  | call_spinDown x _ => - x
  | notify_message w msg =>
      match heap c !! w, type msg with
      | Some _, type_null =>
          if decide (call msg = Some SPIN_UP) then count msg
          else if decide (call msg = Some SPIN_DOWN) then - count msg
          else 0
      | _, _ => 0
      end
  | _ => 0
  end.

Lemma target_run_turn (e : turn) (c : t) :
  target_workers (exec (run_turn e) c) = target_workers c + target_change e c.
Proof.
  pose proof (target_is_stable (target_workers c)) as HS.
  pose proof (target_is_queue_free (target_workers c)) as HQ.
  destruct e; simpl; rewrite ?Z.add_0_r.
  - now apply (stable_start _ HS).
  - rewrite exec_bind.
    assert (target_workers (exec stop c) = target_workers c) as H
      by now apply (stable_stop _ HS).
    now destruct (stop c).1.
  - apply target_spinUp.
  - rewrite target_spinDown. lia.
  - now apply (stable_refreshWorkers _ HS).
  - unfold worker_message. rewrite exec_bind. simpl.
    destruct (heap c !! w); [|unfold exec; simpl; lia].
    unfold onMessage, onSystemMessage.
    destruct (type msg); try (unfold exec; simpl; lia).
    destruct (decide (call msg = Some SPIN_UP)); [apply target_spinUp|].
    destruct (decide (call msg = Some SPIN_DOWN));
      [|unfold exec; simpl; lia].
    rewrite target_spinDown. unfold exec. simpl. lia.
  - now apply (stable_worker_exit _ HS).
Qed.

Lemma target_step (e : turn) (c : t) :
  target_workers (step c e) = target_workers c + target_change e c.
Proof.
  unfold step.
  destruct (drain_ticks_keeps (exec (run_turn e) c)) as (_ & _ & -> & _).
  apply target_run_turn.
Qed.

(** A turn that asks for no more than there is: a count to add is not
    negative, a count to take away is at most [target_workers]. *)
Definition within_target (c : t) (e : turn) : Prop :=
  match e with
  | call_spinUp x => 0 <= x
  | call_spinDown x _ => x <= target_workers c
  | notify_message w msg =>
      type msg = type_null ->
      (call msg = Some SPIN_UP -> 0 <= count msg) /\
      (call msg = Some SPIN_DOWN -> count msg <= target_workers c)
  | _ => True
  end.

Fixpoint all_within_target (c : t) (es : list turn) : Prop :=
  match es with
  | [] => True
  | e :: es' => within_target c e /\ all_within_target (step c e) es'
  end.

(** The turns that are no scaling request. *)
Definition scales (e : turn) : bool :=
  match e with
  | call_spinUp _ | call_spinDown _ _ | notify_message _ _ => true
  | _ => false
  end.

(** C9, as the code has it.  [start], [stop], [refreshWorkers] and exit
    notifications leave [target_workers] as it is; [spinUp] and
    [spinDown], called or asked for by a worker, add and subtract
    their count without a check.  So [target_workers] stays
    non-negative along a run in which no count added is negative and
    no count subtracted exceeds [target_workers] at that moment. *)
Theorem target_workers_nonnegative (c : t) (es : list turn) :
  0 <= target_workers c ->
  all_within_target c es ->
  0 <= target_workers (run es c) /\
  (forall e, scales e = false -> target_workers (step c e) = target_workers c).
Proof.
  intros H0 Hes. split.
  - revert c H0 Hes. induction es as [|e es IH]; intros c H0 Hes;
      simpl; [assumption|].
    destruct Hes as [He Hes]. apply IH; [|assumption].
    rewrite target_step.
    destruct e; simpl in *; try lia.
    destruct (heap c !! w); [|lia].
    destruct (type msg); try lia.
    destruct (He eq_refl) as [Hup Hdown].
    destruct (decide (call msg = Some SPIN_UP)) as [Hc|_];
      [specialize (Hup Hc); lia|].
    destruct (decide (call msg = Some SPIN_DOWN)) as [Hc|_];
      [specialize (Hdown Hc); lia | lia].
  - intros e He. rewrite target_step.
    destruct e; simpl in *; try discriminate; lia.
Qed.

(** C9, as stated, fails: [spinDown(2)] on a target of one, called by
    the owner or asked for by a worker, leaves [target_workers] at -1. *)
Lemma target_workers_negative_counterexample :
  target_workers (Scenario.pool 1) = 1 /\
  target_workers (step (Scenario.pool 1) (call_spinDown 2 false)) = -1 /\
  target_workers
    (step (Scenario.pool 1)
       (notify_message 0
          {| type := type_null; call := Some SPIN_DOWN; system := None;
             count := 2; msg_WORKER_ID := None; message := "" |})) = -1.
Proof. vm_compute. repeat split. Qed.

Lemma target_workers_nonnegative_witness :
  0 <= target_workers (Scenario.pool 2) /\
  0 <= target_workers
         (run [call_spinUp 1; call_spinDown 3 false; call_refreshWorkers]
            (Scenario.pool 2)).
Proof.
  assert (0 <= target_workers (Scenario.pool 2)) as H0
    by (vm_compute; discriminate).
  split; [exact H0|].
  apply (target_workers_nonnegative (Scenario.pool 2)
           [call_spinUp 1; call_spinDown 3 false; call_refreshWorkers] H0).
  vm_compute. repeat split; discriminate.
Defined.

(** *** [spinUp] *)

(** The state after [n] spawns, and the identities they give out. *)
Fixpoint spawn_many (n : nat) (c : t) : t :=
  match n with
  | O => c
  | S n' => spawn_many n' (spawned c)
  end.

Fixpoint next_ids (n : nat) (c : t) : list string :=
  match n with
  | O => []
  | S n' => next_WORKER_ID c :: next_ids n' (spawned c)
  end.

Lemma spawn_loop_eq (n i : nat) (c : t) :
  for_loop n i (fun _ => spawnWorker ;; ret tt) c
  = (Returned tt, spawn_many n c).
Proof.
  revert i c. induction n as [|n IH]; intros i c; [reflexivity|].
  cbn [for_loop spawn_many]. unfold bind at 1 2. rewrite spawnWorker_eq.
  simpl. apply IH.
Qed.

Lemma spinUp_eq (x : Z) (c : t) :
  spinUp x c
  = (Returned tt,
     spawn_many (Z.to_nat x) (set_target_workers (target_workers c + x) c)).
Proof. unfold spinUp, bind, modify. simpl. apply spawn_loop_eq. Qed.

Lemma target_spawn_many (n : nat) (c : t) :
  target_workers (spawn_many n c) = target_workers c.
Proof. revert c. induction n as [|n IH]; intros c; simpl; [|rewrite IH]; reflexivity. Qed.

Lemma length_heap_spawn_many (n : nat) (c : t) :
  length (heap (spawn_many n c)) = (length (heap c) + n)%nat.
Proof.
  revert c. induction n as [|n IH]; intros c; simpl; [lia|].
  rewrite IH. simpl. rewrite length_app. simpl. lia.
Qed.

(** When the identities given out are new and differ from each other,
    the registry gains one key for each, in the order of the spawns. *)
Lemma keys_spawn_many (n : nat) (c : t) :
  NoDup (Obj.keys (workers c) ++ next_ids n c) ->
  Obj.keys (workers (spawn_many n c)) = Obj.keys (workers c) ++ next_ids n c.
Proof.
  revert c. induction n as [|n IH]; intros c Hnd; simpl in *.
  - now rewrite app_nil_r.
  - assert (next_WORKER_ID c ∉ Obj.keys (workers c)) as Hnew.
    { apply NoDup_app in Hnd as (_ & Hdisj & _).
      intros Hin. apply (Hdisj _ Hin). apply list_elem_of_here. }
    rewrite IH; simpl; rewrite ObjFacts.keys_set_notin by assumption.
    + now rewrite <- app_assoc.
    + now rewrite <- app_assoc.
Qed.

Lemma length_next_ids (n : nat) (c : t) : length (next_ids n c) = n.
Proof. revert c. induction n as [|n IH]; intros c; simpl; [|rewrite IH]; reflexivity. Qed.

Lemma next_ids_set_target_workers (n : nat) (v : Z) (c : t) :
  next_ids n (set_target_workers v c) = next_ids n c.
Proof.
  revert c. induction n as [|n IH]; intros c; [reflexivity|].
  cbn [next_ids]. f_equal. apply (IH (spawned c)).
Qed.

(** C4.  A message of type [null] whose [call] is SPIN_UP is handled as
    [spinUp(count)]: the two leave the same state.  [target_workers]
    goes up by the count, as many handles are created, and the running
    count goes up by the count as well when the identities given out
    are new to the registry and differ from each other. *)
Theorem SPIN_UP_message_is_spinUp (c : t) (w : nat) (msg : envelope) :
  type msg = type_null ->
  call msg = Some SPIN_UP ->
  0 <= count msg ->
  let n := count msg in
  let c' := exec (onMessage w msg) c in
  onMessage w msg c = spinUp n c /\
  (is_Some (heap c !! w) -> worker_message w msg c = spinUp n c) /\
  (onMessage w msg c).1 = Returned tt /\
  target_workers c' = target_workers c + n /\
  Z.of_nat (length (heap c')) = Z.of_nat (length (heap c)) + n /\
  (NoDup (Obj.keys (workers c) ++ next_ids (Z.to_nat n) c) ->
   running_workers c' = running_workers c + n).
Proof.
  intros Hty Hcall Hn n c'.
  assert (onMessage w msg c = spinUp n c) as Heq.
  { unfold onMessage, onSystemMessage. rewrite Hty.
    now rewrite decide_True by assumption. }
  split; [exact Heq|]. split.
  { intros [x Hx]. unfold worker_message, bind, gets. simpl.
    now rewrite Hx. }
  subst c'. unfold exec. rewrite Heq, spinUp_eq. simpl.
  split; [reflexivity|]. split; [apply target_spawn_many|]. split.
  - rewrite length_heap_spawn_many. simpl. lia.
  - intros Hnd. unfold running_workers.
    rewrite keys_spawn_many
      by (rewrite next_ids_set_target_workers; exact Hnd).
    rewrite next_ids_set_target_workers. simpl.
    rewrite length_app, length_next_ids. lia.
Qed.

Lemma SPIN_UP_message_is_spinUp_witness :
  let msg := Scenario.spin_up_request 2 in
  0 <= count msg /\
  NoDup (Obj.keys (workers (Scenario.pool 1))
         ++ next_ids (Z.to_nat (count msg)) (Scenario.pool 1)) /\
  target_workers (exec (onMessage 0 msg) (Scenario.pool 1))
  = target_workers (Scenario.pool 1) + count msg /\
  running_workers (exec (onMessage 0 msg) (Scenario.pool 1))
  = running_workers (Scenario.pool 1) + count msg.
Proof.
  intros msg.
  assert (0 <= count msg) as Hn by discriminate.
  assert (NoDup (Obj.keys (workers (Scenario.pool 1))
                 ++ next_ids (Z.to_nat (count msg)) (Scenario.pool 1)))
    as Hnd by decide_by_computation.
  destruct (SPIN_UP_message_is_spinUp (Scenario.pool 1) 0 msg
              eq_refl eq_refl Hn)
    as (_ & _ & _ & Ht & _ & Hr).
  split; [exact Hn|]. split; [exact Hnd|].
  split; [exact Ht | exact (Hr Hnd)].
Defined.

(** *** The identity and the environment of a spawned worker *)

Lemma lookup_spread_new (e : gmap string string) (id : string) :
  e !! "WORKER_ID" = None ->
  spread {[ "WORKER_ID" := id ]} e !! "WORKER_ID" = Some id.
Proof.
  intros H. unfold spread. rewrite lookup_union_r by assumption.
  apply lookup_singleton_eq.
Qed.

Lemma lookup_spread_env (e : gmap string string) (id k v : string) :
  e !! k = Some v -> spread {[ "WORKER_ID" := id ]} e !! k = Some v.
Proof. intros H. unfold spread. now apply lookup_union_Some_l. Qed.

(** C8, as the code has it.  When the clock, in seconds, fits eight
    hexadecimal digits and [Math.random] stays in [0, 1), the identity
    of a spawned worker has 24 characters, all lowercase hexadecimal:
    the first eight read back as the seconds of the clock, the
    following eight pairs as the bytes drawn.  The handle carries that
    identity, and the environment given to the new process holds every
    variable of the configured mapping, and the identity under
    WORKER_ID when the mapping has no variable of that name. *)
Theorem spawnWorker_identity (c : t) :
  0 <= clock c (clock_reads c) / 1000 < 2 ^ 32 ->
  Forall unit_interval (next_randoms c) ->
  exists id x,
    spawnWorker c = (Returned id, spawned c) /\
    heap (spawned c) = heap c ++ [x] /\
    WORKER_ID x = id /\
    String.length id = 24%nat /\
    JS.all_lower_hex id = true /\
    id_seconds id = Some (clock c (clock_reads c) / 1000) /\
    (forall i r, next_randoms c !! i = Some r ->
                 id_byte i id = Some (JS.floor_times_256 r)) /\
    (forall k v, env c !! k = Some v -> fork_env x !! k = Some v) /\
    (env c !! "WORKER_ID" = None -> fork_env x !! "WORKER_ID" = Some id).
Proof.
  intros Hms Hrs. exists (next_WORKER_ID c), (next_worker c).
  split; [apply spawnWorker_eq|]. split; [reflexivity|].
  split; [reflexivity|]. unfold next_WORKER_ID.
  split; [now rewrite length_identity|].
  split; [now apply all_lower_hex_identity|].
  split; [now apply identity_seconds|].
  split; [intros i r; now apply identity_byte|].
  split; [intros k v; apply lookup_spread_env|].
  apply lookup_spread_new.
Qed.

Lemma cycling_unit_interval (n : nat) : unit_interval (Scenario.cycling n).
Proof.
  unfold unit_interval, Scenario.cycling, Qle, Qlt. simpl.
  pose proof (Nat.mod_upper_bound n 256 ltac:(lia)). lia.
Qed.

Lemma spawnWorker_identity_witness :
  let c := Scenario.cluster 1 in
  0 <= clock c (clock_reads c) / 1000 < 2 ^ 32 /\
  Forall unit_interval (next_randoms c) /\
  env c !! "WORKER_ID" = None /\
  String.length (next_WORKER_ID c) = 24%nat /\
  fork_env (next_worker c) !! "WORKER_ID" = Some (next_WORKER_ID c).
Proof.
  intros c.
  assert (0 <= clock c (clock_reads c) / 1000 < 2 ^ 32) as Hms
    by (vm_compute; split; [discriminate | reflexivity]).
  assert (Forall unit_interval (next_randoms c)) as Hrs.
  { apply Forall_forall. intros r Hr.
    apply list_elem_of_fmap in Hr as [i [-> _]]. apply cycling_unit_interval. }
  assert (env c !! "WORKER_ID" = None) as He by reflexivity.
  destruct (spawnWorker_identity c Hms Hrs)
    as (id & x & Heq & Hheap & Hid & Hlen & _ & _ & _ & _ & Henv).
  rewrite spawnWorker_eq in Heq. injection Heq as <-.
  apply app_inv_head in Hheap. injection Hheap as <-.
  split; [exact Hms|]. split; [exact Hrs|]. split; [exact He|].
  split; [exact Hlen | exact (Henv He)].
Defined.

(** C8, as stated, fails twice.  Once the clock reaches 2^32 seconds
    the identity has 25 characters; and a configured WORKER_ID variable
    takes the place of the identity in the environment of the process. *)
Lemma spawnWorker_identity_counterexample :
  (let c := new 1 ∅ true true false 500
              (fun _ => 4294967296000) Scenario.cycling in
   (spawnWorker c).1 = Returned "1000000000001020304050607" /\
   String.length "1000000000001020304050607" = 25%nat) /\
  (let c := new 1 {[ "WORKER_ID" := "mine" ]} true true false 500
              Scenario.ticking Scenario.cycling in
   (spawnWorker c).1 = Returned "6553f1000001020304050607" /\
   fork_env <$> heap (exec spawnWorker c) !! 0%nat
   = Some {[ "WORKER_ID" := "mine" ]}).
Proof.
  split; cbv zeta; (split; [vm_compute; reflexivity|]).
  - reflexivity.
  - unfold exec. rewrite spawnWorker_eq.
    change (Some (spread {[ "WORKER_ID" := "6553f1000001020304050607" ]}
                    {[ "WORKER_ID" := "mine" ]})
            = Some ({[ "WORKER_ID" := "mine" ]} : gmap string string)).
    reflexivity.
Qed.

(** *** Further properties of the Supervisor *)

(** Every state the Supervisor reaches from its construction, by any
    calls and notifications in any order (a call that throws
    included), is well-formed: no key twice in the registry, each entry
    naming a handle that carries the key as its identity, each handle
    with one "exit" listener. *)
Theorem reachable_wf (workers0 : Z) (env0 : gmap string string)
    (error signal normal_exit : bool) (min_age : Z)
    (clock0 : nat -> Z) (random0 : nat -> Q) (es : list turn) :
  wf (run es (new workers0 env0 error signal normal_exit min_age
                clock0 random0)).
Proof. apply wf_run, wf_new. Qed.

(** Two identities made from clocks and bytes in range are the same
    string exactly when the seconds and the eight bytes agree. *)
Theorem identity_injective (ms ms' : Z) (rs rs' : list Q) :
  0 <= ms / 1000 < 2 ^ 32 ->
  0 <= ms' / 1000 < 2 ^ 32 ->
  Forall unit_interval rs ->
  Forall unit_interval rs' ->
  length rs = length rs' ->
  identity ms rs = identity ms' rs' <->
  ms / 1000 = ms' / 1000 /\
  JS.floor_times_256 <$> rs = JS.floor_times_256 <$> rs'.
Proof.
  intros Hms Hms' Hrs Hrs' Hlen. split.
  - intros Heq. split.
    + pose proof (identity_seconds ms rs Hms) as H1.
      pose proof (identity_seconds ms' rs' Hms') as H2.
      rewrite Heq in H1. congruence.
    + apply list_eq. intros i. rewrite !list_lookup_fmap.
      destruct (rs !! i) as [r|] eqn:Hr.
      * assert (is_Some (rs' !! i)) as [r' Hr'].
        { apply lookup_lt_is_Some. rewrite <- Hlen.
          eapply lookup_lt_Some, Hr. }
        rewrite Hr'. simpl.
        pose proof (identity_byte ms rs i r Hms Hrs Hr) as H1.
        pose proof (identity_byte ms' rs' i r' Hms' Hrs' Hr') as H2.
        rewrite Heq in H1. congruence.
      * apply lookup_ge_None in Hr. rewrite Hlen in Hr.
        apply lookup_ge_None in Hr. now rewrite Hr.
  - intros [Hs Hb]. rewrite !identity_parts. f_equal.
    + unfold time_part. now rewrite Hs.
    + clear Hrs Hrs' Hlen. revert rs' Hb.
      induction rs as [|r rs IH]; intros [|r' rs'] Hb;
        try discriminate; [reflexivity|].
      simpl in Hb. injection Hb as Hr Hb. cbn [byte_parts]. f_equal.
      * unfold byte_part. now rewrite Hr.
      * now apply IH.
Qed.

Lemma identity_injective_witness :
  identity 1700000000123 [1 # 2; 3 # 4]
  = identity 1700000000999 [257 # 512; 385 # 512].
Proof.
  apply identity_injective.
  - vm_compute. split; [discriminate | reflexivity].
  - vm_compute. split; [discriminate | reflexivity].
  - repeat constructor; discriminate.
  - repeat constructor; discriminate.
  - reflexivity.
  - split; reflexivity.
Defined.

(** The decision of [#onExit] for any exit of a tracked worker.  A
    replacement is spawned exactly when the registry, the entry once
    removed, is below [target_workers], the worker lived at least
    [min_restart_age], and the flag for the kind of exit is set: a
    signal selects [restart_on_signal] whatever the code; without a
    signal a code other than 0 ([null] included) selects
    [restart_on_error], and code 0 selects [restart_on_normal_exit]. *)
Theorem onExit_restart_policy (c : t) (w : nat) (x : worker)
    (code : option Z) (signal : option string) :
  wf c ->
  heap c !! w = Some x ->
  WORKER_ID x ∈ Obj.keys (workers c) ->
  let age := clock c (clock_reads c) - BIRTH_TIME x in
  let c' := exec (onExit w code signal) c in
  let allowed (flag : bool) :=
    running_workers c - 1 < target_workers c /\
    min_restart_age c <= age /\ flag = true in
  let spawns := length (heap c') = S (length (heap c)) in
  (truthy signal = true -> (spawns <-> allowed (restart_on_signal c))) /\
  (truthy signal = false -> code <> Some 0 ->
   (spawns <-> allowed (restart_on_error c))) /\
  (truthy signal = false -> code = Some 0 ->
   (spawns <-> allowed (restart_on_normal_exit c))).
Proof.
  intros [Hnd _] Hx Hin age c' allowed spawns.
  subst c' spawns allowed. unfold exec.
  rewrite (onExit_eq c w x code signal Hx). cbn [snd].
  assert (forall flag,
            policy c code signal = flag ->
            length (heap (if replaces w x code signal c
                          then replaced w code signal
                                 (buried w x code signal c)
                          else buried w x code signal c))
            = S (length (heap c)) <->
            running_workers c - 1 < target_workers c /\
            min_restart_age c <= age /\ flag = true) as H.
  { intros flag Hflag. unfold replaces.
    rewrite running_workers_buried by assumption. rewrite Hflag.
    cbn [target_workers buried set_emitted set_workers set_heap
           set_clock_reads].
    destruct (_ <? _) eqn:H1; destruct (_ <=? _) eqn:H2; destruct flag;
      cbn [andb replaced spawned heap buried set_emitted set_workers
             set_heap set_clock_reads];
      rewrite ?length_app, ?length_alter; cbn [length];
      rewrite ?Z.ltb_lt, ?Z.ltb_ge, ?Z.leb_le, ?Z.leb_gt in *;
      subst age; split; try lia; intros (? & ? & ?);
      try discriminate; lia. }
  split; [|split].
  - intros Hs. apply H. unfold policy. now rewrite Hs.
  - intros Hs Hc. apply H. unfold policy. rewrite Hs.
    assert (code_not_zero code = true) as ->; [|reflexivity].
    destruct code as [[| |]|]; try reflexivity. contradiction.
  - intros Hs ->. apply H. unfold policy. now rewrite Hs.
Qed.

Lemma onExit_restart_policy_witness :
  length (heap (exec (onExit 0 None (Some "SIGKILL")) (Scenario.pool 1)))
  = S (length (heap (Scenario.pool 1))) /\
  length (heap (exec (onExit 0 (Some 0) None) (Scenario.pool 1)))
  <> S (length (heap (Scenario.pool 1))).
Proof.
  assert (wf (Scenario.pool 1)) as Hwf by decide_by_computation.
  assert (heap (Scenario.pool 1) !! 0%nat
          = Some (next_worker (Scenario.cluster 1))) as Hx by reflexivity.
  assert (WORKER_ID (next_worker (Scenario.cluster 1))
          ∈ Obj.keys (workers (Scenario.pool 1))) as Hin
    by decide_by_computation.
  split.
  - destruct (onExit_restart_policy _ 0 _ None (Some "SIGKILL") Hwf Hx Hin)
      as (Hsig & _ & _).
    apply (Hsig eq_refl). vm_compute. repeat split; discriminate.
  - destruct (onExit_restart_policy _ 0 _ (Some 0) None Hwf Hx Hin)
      as (_ & _ & Hzero).
    intros Hs. apply (Hzero eq_refl eq_refl) in Hs as (_ & _ & Hflag).
    discriminate Hflag.
Defined.

(** The exit handler never leaves more workers registered than there
    were when the worker left, never changes [target_workers], and
    creates at most one handle. *)
Theorem onExit_never_grows (c : t) (w : nat) (x : worker)
    (code : option Z) (signal : option string) :
  wf c ->
  heap c !! w = Some x ->
  WORKER_ID x ∈ Obj.keys (workers c) ->
  let c' := exec (onExit w code signal) c in
  running_workers c - 1 <= running_workers c' <= running_workers c /\
  target_workers c' = target_workers c /\
  (length (heap c') <= S (length (heap c)))%nat.
Proof.
  intros [Hnd _] Hx Hin c'. subst c'. unfold exec.
  rewrite (onExit_eq c w x code signal Hx). cbn [snd].
  pose proof (running_workers_buried c w x code signal Hnd Hin) as Hb.
  destruct (replaces w x code signal c).
  - rewrite (running_workers_length (replaced _ _ _ _)).
    rewrite running_workers_length in Hb.
    rewrite (running_workers_length c) in *.
    cbn [replaced spawned workers heap target_workers set_emitted] in *.
    rewrite ObjFacts.length_set, length_app. cbn [length].
    cbn [buried heap set_emitted set_workers set_heap set_clock_reads
           target_workers].
    rewrite length_alter.
    destruct (decide _); repeat split; lia.
  - rewrite Hb. cbn [buried heap set_emitted set_workers set_heap
                       set_clock_reads target_workers].
    rewrite length_alter. repeat split; lia.
Qed.

Lemma onExit_never_grows_witness :
  running_workers (exec (onExit 0 (Some 1) None) (Scenario.pool 1))
  <= running_workers (Scenario.pool 1).
Proof.
  assert (wf (Scenario.pool 1)) as Hwf by decide_by_computation.
  assert (heap (Scenario.pool 1) !! 0%nat
          = Some (next_worker (Scenario.cluster 1))) as Hx by reflexivity.
  assert (WORKER_ID (next_worker (Scenario.cluster 1))
          ∈ Obj.keys (workers (Scenario.pool 1))) as Hin
    by decide_by_computation.
  now destruct (onExit_never_grows _ 0 _ (Some 1) None Hwf Hx Hin)
    as ([_ H] & _).
Defined.

(** [spinDown(x)] without [force] touches [target_workers] only, and
    the pool shrinks by attrition: while the registry, one entry
    removed, is not below the new target, a worker that leaves is not
    replaced, whatever its code, its signal and its age. *)
Theorem spinDown_attrition (c : t) (x : Z) (w : nat) (wx : worker)
    (code : option Z) (signal : option string) :
  wf c ->
  heap c !! w = Some wx ->
  WORKER_ID wx ∈ Obj.keys (workers c) ->
  target_workers c - x <= running_workers c - 1 ->
  let c1 := exec (spinDown x false) c in
  let c2 := exec (onExit w code signal) c1 in
  spinDown x false c
  = (Returned tt, set_target_workers (target_workers c - x) c) /\
  length (heap c2) = length (heap c) /\
  running_workers c2 = running_workers c - 1 /\
  new_events c c2 = [death w code signal].
Proof.
  intros [Hnd _] Hx Hin Hle c1 c2. split; [reflexivity|].
  subst c2 c1. unfold exec at 2 4 6. cbn [spinDown snd].
  change (spinDown x false c).2
    with (set_target_workers (target_workers c - x) c).
  set (c1 := set_target_workers (target_workers c - x) c).
  unfold exec. rewrite (onExit_eq c1 w wx code signal Hx). cbn [snd].
  assert (replaces w wx code signal c1 = false) as ->.
  { unfold replaces.
    rewrite (running_workers_buried c1 w wx code signal Hnd Hin).
    assert ((running_workers c1 - 1
             <? target_workers (buried w wx code signal c1)) = false) as ->;
      [|reflexivity].
    apply Z.ltb_ge. exact Hle. }
  split; [apply length_alter|]. split.
  - exact (running_workers_buried c1 w wx code signal Hnd Hin).
  - now apply new_events_app.
Qed.

Lemma spinDown_attrition_witness :
  running_workers
    (exec (onExit 0 (Some 1) None)
       (exec (spinDown 1 false) (Scenario.pool 2)))
  = running_workers (Scenario.pool 2) - 1.
Proof.
  assert (wf (Scenario.pool 2)) as Hwf by decide_by_computation.
  assert (heap (Scenario.pool 2) !! 0%nat
          = Some (next_worker (Scenario.cluster 2))) as Hx by reflexivity.
  assert (WORKER_ID (next_worker (Scenario.cluster 2))
          ∈ Obj.keys (workers (Scenario.pool 2))) as Hin
    by decide_by_computation.
  assert (target_workers (Scenario.pool 2) - 1
          <= running_workers (Scenario.pool 2) - 1) as Hle
    by (vm_compute; discriminate).
  now destruct (spinDown_attrition _ 1 0 _ (Some 1) None Hwf Hx Hin Hle)
    as (_ & _ & H & _).
Defined.

(** Spawning adds handles at the end of the heap and keeps the keys
    that are in the registry. *)
Lemma spawn_many_extends (n : nat) (c : t) :
  heap c `prefix_of` heap (spawn_many n c) /\
  Obj.keys (workers c) ⊆ Obj.keys (workers (spawn_many n c)).
Proof.
  revert c. induction n as [|n IH]; intros c; [now split|].
  cbn [spawn_many]. destruct (IH (spawned c)) as [Hh Hk]. split.
  - etransitivity; [|exact Hh]. now apply prefix_app_r.
  - etransitivity; [|exact Hk]. cbn [spawned workers].
    intros k Hk'. destruct (decide (next_WORKER_ID c ∈ Obj.keys (workers c))).
    + now rewrite ObjFacts.keys_set_in.
    + rewrite ObjFacts.keys_set_notin by assumption.
      apply elem_of_app. now left.
Qed.

(** A message from a worker, whatever it holds, never takes a worker
    away: every handle stays as it is (no listener changed, nothing
    sent to it) and every key stays in the registry.  In particular a
    SPIN_DOWN request terminates nobody. *)
Theorem messages_never_remove (c : t) (ms : list (nat * envelope)) :
  let c' := run ((fun m => notify_message m.1 m.2) <$> ms) c in
  heap c `prefix_of` heap c' /\
  Obj.keys (workers c) ⊆ Obj.keys (workers c').
Proof.
  revert c. induction ms as [|[w msg] ms IH]; intros c; [now split|].
  cbn [fmap list_fmap]. rewrite run_cons.
  assert (heap c `prefix_of` heap (step c (notify_message w msg)) /\
          Obj.keys (workers c)
            ⊆ Obj.keys (workers (step c (notify_message w msg)))) as [Hh Hk].
  { unfold step.
    destruct (drain_ticks_keeps (exec (run_turn (notify_message w msg)) c))
      as (-> & -> & _).
    unfold exec, run_turn, worker_message, bind, gets. cbn [fst snd].
    destruct (heap c !! w); [|now split].
    unfold onMessage. destruct (type msg); try now split.
    unfold onSystemMessage.
    destruct (decide (call msg = Some SPIN_UP)).
    - rewrite spinUp_eq. cbn [snd].
      exact (spawn_many_extends _
               (set_target_workers (target_workers c + count msg) c)).
    - destruct (decide (call msg = Some SPIN_DOWN)); now split. }
  destruct (IH (step c (notify_message w msg))) as [Hh' Hk'].
  cbv zeta in *. split; etransitivity; eassumption.
Qed.

Lemma start_eq (c : t) :
  start c = (Returned tt, spawn_many (Z.to_nat (target_workers c)) c).
Proof. unfold start, bind, gets. cbn [fst snd]. apply spawn_loop_eq. Qed.

Lemma refreshWorkers_eq (c : t) :
  refreshWorkers c
  = (Returned tt,
     spawn_many (Z.to_nat (target_workers c - running_workers c)) c).
Proof.
  unfold refreshWorkers, bind, gets. cbn [fst snd]. apply spawn_loop_eq.
Qed.

Lemma running_workers_spawn_many (n : nat) (c : t) :
  NoDup (Obj.keys (workers c) ++ next_ids n c) ->
  running_workers (spawn_many n c) = running_workers c + Z.of_nat n.
Proof.
  intros Hnd. unfold running_workers.
  rewrite keys_spawn_many by exact Hnd.
  rewrite length_app, length_next_ids. lia.
Qed.

(** [start()] spawns [target_workers] workers, none when the target is
    not positive, on top of the workers that are registered already:
    it does not look at the running count.  With identities that are
    new and distinct the running count grows by that number. *)
Theorem start_spawns_target (c : t) :
  NoDup (Obj.keys (workers c) ++ next_ids (Z.to_nat (target_workers c)) c) ->
  let c' := exec start c in
  (start c).1 = Returned tt /\
  target_workers c' = target_workers c /\
  length (heap c') = (length (heap c) + Z.to_nat (target_workers c))%nat /\
  running_workers c' = running_workers c + Z.max 0 (target_workers c).
Proof.
  intros Hnd c'. subst c'. unfold exec. rewrite start_eq. cbn [fst snd].
  split; [reflexivity|]. split; [apply target_spawn_many|].
  split; [apply length_heap_spawn_many|].
  rewrite running_workers_spawn_many by exact Hnd. lia.
Qed.

(** Calling [start()] a second time doubles a pool of two. *)
Lemma start_spawns_target_witness :
  NoDup (Obj.keys (workers (Scenario.pool 2))
         ++ next_ids (Z.to_nat (target_workers (Scenario.pool 2)))
              (Scenario.pool 2)) /\
  running_workers (exec start (Scenario.pool 2))
  = running_workers (Scenario.pool 2)
    + Z.max 0 (target_workers (Scenario.pool 2)) /\
  target_workers (exec start (Scenario.pool 2))
  = target_workers (Scenario.pool 2).
Proof.
  assert (NoDup (Obj.keys (workers (Scenario.pool 2))
                 ++ next_ids (Z.to_nat (target_workers (Scenario.pool 2)))
                      (Scenario.pool 2))) as Hnd
    by decide_by_computation.
  destruct (start_spawns_target (Scenario.pool 2) Hnd) as (_ & Ht & _ & Hr).
  split; [exact Hnd|]. split; [exact Hr | exact Ht].
Defined.

(** [refreshWorkers()] brings the running count up to [target_workers]
    when it is below, and does nothing otherwise; called again at once
    it changes nothing.  (Identities new and distinct.) *)
Theorem refreshWorkers_tops_up (c : t) :
  NoDup (Obj.keys (workers c)
         ++ next_ids (Z.to_nat (target_workers c - running_workers c)) c) ->
  let c' := exec refreshWorkers c in
  (refreshWorkers c).1 = Returned tt /\
  target_workers c' = target_workers c /\
  running_workers c' = Z.max (running_workers c) (target_workers c) /\
  (target_workers c <= running_workers c -> c' = c) /\
  exec refreshWorkers c' = c'.
Proof.
  intros Hnd c'. subst c'. unfold exec. rewrite !refreshWorkers_eq.
  cbn [fst snd].
  set (n := Z.to_nat (target_workers c - running_workers c)) in *.
  assert (running_workers (spawn_many n c)
          = Z.max (running_workers c) (target_workers c)) as Hr
    by (rewrite running_workers_spawn_many by exact Hnd; lia).
  split; [reflexivity|]. split; [apply target_spawn_many|].
  split; [exact Hr|]. split.
  - intros Hle. assert (n = 0%nat) as -> by lia. reflexivity.
  - rewrite Hr, target_spawn_many.
    assert (Z.to_nat (target_workers c
                      - Z.max (running_workers c) (target_workers c))
            = 0%nat) as -> by lia.
    reflexivity.
Qed.

(** A pool of three that lost a worker which was not replaced. *)
Lemma refreshWorkers_tops_up_witness :
  let c := step (Scenario.crashing_pool 3) (notify_exit 0 (Some 1) None) in
  NoDup (Obj.keys (workers c)
         ++ next_ids (Z.to_nat (target_workers c - running_workers c)) c) /\
  running_workers c = 2 /\
  running_workers (exec refreshWorkers c)
  = Z.max (running_workers c) (target_workers c) /\
  target_workers c = 3.
Proof.
  intros c.
  assert (NoDup (Obj.keys (workers c)
                 ++ next_ids
                      (Z.to_nat (target_workers c - running_workers c)) c))
    as Hnd by decide_by_computation.
  destruct (refreshWorkers_tops_up c Hnd) as (_ & _ & Hr & _).
  split; [exact Hnd|]. split; [reflexivity|].
  split; [exact Hr | reflexivity].
Defined.

(** [spinUp(x)] adds [x] to [target_workers] whatever its sign and
    spawns [x] workers, none when [x] is not positive: a negative
    count lowers the target and nothing else. *)
Theorem spinUp_any_count (c : t) (x : Z) :
  NoDup (Obj.keys (workers c) ++ next_ids (Z.to_nat x) c) ->
  let c' := exec (spinUp x) c in
  (spinUp x c).1 = Returned tt /\
  target_workers c' = target_workers c + x /\
  length (heap c') = (length (heap c) + Z.to_nat x)%nat /\
  running_workers c' = running_workers c + Z.max 0 x /\
  (x <= 0 -> c' = set_target_workers (target_workers c + x) c).
Proof.
  intros Hnd c'. subst c'. unfold exec. rewrite spinUp_eq. cbn [fst snd].
  set (c1 := set_target_workers (target_workers c + x) c).
  split; [reflexivity|]. split; [apply (target_spawn_many _ c1)|].
  split; [apply (length_heap_spawn_many _ c1)|]. split.
  - rewrite running_workers_spawn_many
      by (subst c1; rewrite next_ids_set_target_workers; exact Hnd).
    change (running_workers c1) with (running_workers c). lia.
  - intros Hx. assert (Z.to_nat x = 0%nat) as -> by lia. reflexivity.
Qed.

Lemma spinUp_any_count_witness :
  NoDup (Obj.keys (workers (Scenario.pool 2))
         ++ next_ids (Z.to_nat (-1)) (Scenario.pool 2)) /\
  target_workers (exec (spinUp (-1)) (Scenario.pool 2))
  = target_workers (Scenario.pool 2) + -1 /\
  running_workers (exec (spinUp (-1)) (Scenario.pool 2))
  = running_workers (Scenario.pool 2) + Z.max 0 (-1).
Proof.
  assert (NoDup (Obj.keys (workers (Scenario.pool 2))
                 ++ next_ids (Z.to_nat (-1)) (Scenario.pool 2))) as Hnd
    by decide_by_computation.
  destruct (spinUp_any_count (Scenario.pool 2) (-1) Hnd)
    as (_ & Ht & _ & Hr & _).
  split; [exact Hnd|]. split; [exact Ht | exact Hr].
Defined.

(** After the termination of every registered worker, each of them
    carries the clean-up listener and the request. *)
Lemma terminate_all_registered (c : t) (k : string) (r : nat) (x : worker) :
  wf c ->
  (k, r) ∈ workers c ->
  heap c !! r = Some x ->
  terminate_all (Obj.keys (workers c)) (workers c) (heap c) !! r
  = Some (terminated (Some k) x).
Proof.
  intros Hwf Hin Hx. pose proof (wf_elem_get c k r Hwf Hin) as Hget.
  apply terminate_all_lookup; try assumption.
  - now destruct Hwf.
  - intros k' _ Hne Hget'. apply Hne. now apply (wf_injective c k' k r).
  - apply list_elem_of_fmap. now exists (k, r).
Qed.

Lemma heap_step_stop (c : t) :
  heap (step c call_stop)
  = terminate_all (Obj.keys (workers c)) (workers c) (heap c) /\
  workers (step c call_stop) = workers c /\
  target_workers (step c call_stop) = target_workers c.
Proof.
  unfold step, run_turn.
  destruct (drain_ticks_keeps (exec (stop ;; ret tt) c)) as (-> & -> & -> & _).
  unfold exec, bind. now rewrite stop_eq.
Qed.

(** [stop()] never throws, in any state; it sends the EXIT request to
    every registered worker and leaves the registry as it is.  Then
    each exit notification of one of these workers, in any order and
    with any code or signal, takes one entry away and spawns nothing
    (not even with [restart_on_error] set): after all of them the
    registry is empty. *)
Theorem stop_then_exits (c : t)
    (es : list (nat * option Z * option string)) :
  wf c ->
  NoDup (es.*1.*1) ->
  (forall e, e ∈ es -> e.1.1 ∈ (workers c).*2) ->
  let c1 := step c call_stop in
  let c2 := run (exit_of <$> es) c1 in
  (stop c).1 = Returned (length (promises c)) /\
  workers c1 = workers c /\
  (forall k r x, (k, r) ∈ workers c -> heap c !! r = Some x ->
                 heap c1 !! r = Some (terminated (Some k) x)) /\
  running_workers c2 = running_workers c - Z.of_nat (length es) /\
  heap c2 = heap c1 /\
  target_workers c2 = target_workers c /\
  (length es = length (workers c) -> workers c2 = []).
Proof.
  intros Hwf Hnd Hes c1 c2.
  destruct (heap_step_stop c) as (Hh1 & Hw1 & Ht1). fold c1 in Hh1, Hw1, Ht1.
  split; [now rewrite stop_eq|]. split; [exact Hw1|].
  split; [intros k r x Hin Hx; rewrite Hh1;
          now apply terminate_all_registered|].
  set (ks := key_of c <$> es.*1.*1).
  assert (forall r, r ∈ (workers c).*2 ->
            (key_of c r, r) ∈ workers c /\
            exists x, heap c !! r = Some x /\ WORKER_ID x = key_of c r)
    as Hkey.
  { intros r Hr. apply list_elem_of_fmap in Hr as [[k r'] [-> Hin]].
    cbn [snd].
    destruct (wf_get c k r' Hwf (wf_elem_get c k r' Hwf Hin))
      as (x & Hx & <-).
    unfold key_of. rewrite Hx. cbn. split; [assumption|]. now exists x. }
  assert (Forall2 (fun e k =>
             exists x, heap c1 !! e.1.1 = Some x /\
                       exit_listeners x = [on_exit_terminated k]) es ks)
    as Hall.
  { subst ks. rewrite <- !list_fmap_compose. apply Forall2_fmap_r.
    apply Forall_Forall2_diag. apply Forall_forall. intros e He. cbn.
    destruct (Hkey _ (Hes e He)) as (Hin & x & Hx & _).
    exists (terminated (Some (key_of c e.1.1)) x). split; [|reflexivity].
    rewrite Hh1. now apply terminate_all_registered. }
  destruct (run_exits_terminated es ks c1 Hall) as (Hh & Hw & Ht).
  cbv zeta in Hh, Hw, Ht. fold c2 in Hh, Hw, Ht.
  assert (length (delete_all ks (workers c)) + length ks
          = length (workers c))%nat as Hlen.
  { apply length_delete_all.
    - now destruct Hwf.
    - subst ks. apply NoDup_fmap_2_strong; [|exact Hnd].
      intros r r' Hr Hr' Heq.
      assert (r ∈ (workers c).*2) as Hr1.
      { apply list_elem_of_fmap in Hr as [p [-> Hp]].
        apply list_elem_of_fmap in Hp as [e [-> He]]. now apply Hes. }
      assert (r' ∈ (workers c).*2) as Hr2.
      { apply list_elem_of_fmap in Hr' as [p [-> Hp]].
        apply list_elem_of_fmap in Hp as [e [-> He]]. now apply Hes. }
      destruct (Hkey r Hr1) as [H1 _]. destruct (Hkey r' Hr2) as [H2 _].
      rewrite <- Heq in H2.
      pose proof (wf_elem_get c _ _ Hwf H1).
      pose proof (wf_elem_get c _ _ Hwf H2). congruence.
    - intros k Hk. subst ks.
      apply list_elem_of_fmap in Hk as [r [-> Hr]].
      apply list_elem_of_fmap in Hr as [p [-> Hp]].
      apply list_elem_of_fmap in Hp as [e [-> He]].
      destruct (Hkey _ (Hes e He)) as [Hin _].
      apply list_elem_of_fmap. now exists (key_of c e.1.1, e.1.1). }
  assert (length ks = length es) as Hks
    by (subst ks; now rewrite !length_fmap).
  split; [|split; [exact Hh|split; [congruence|]]].
  - rewrite !running_workers_length, Hw, Hw1. lia.
  - intros Hfull. rewrite Hw, Hw1.
    apply length_zero_iff_nil. lia.
Qed.

Lemma stop_then_exits_witness :
  let es := [(1%nat, Some 1, None); (0%nat, None, Some "SIGKILL")] in
  wf (Scenario.pool 2) /\
  workers (run (exit_of <$> es) (step (Scenario.pool 2) call_stop)) = [] /\
  heap (run (exit_of <$> es) (step (Scenario.pool 2) call_stop))
  = heap (step (Scenario.pool 2) call_stop).
Proof.
  intros es.
  assert (wf (Scenario.pool 2)) as Hwf by decide_by_computation.
  assert (NoDup (es.*1.*1)) as Hnd by decide_by_computation.
  assert (forall e, e ∈ es -> e.1.1 ∈ (workers (Scenario.pool 2)).*2) as Hes.
  { apply Forall_forall. decide_by_computation. }
  destruct (stop_then_exits (Scenario.pool 2) es Hwf Hnd Hes)
    as (_ & _ & _ & _ & Hh & _ & Hempty).
  split; [exact Hwf|]. split; [exact (Hempty eq_refl) | exact Hh].
Defined.





End ClusterFacts.

(** ** The WorkerAgent *)

Module WorkerFacts.
Import Protocol Worker.

(** The handlers a construction leaves on [process]. *)
Definition agent_handlers : list (string * process_handler) :=
  [ ("message", bound_onMessage);
    ("SIGHUP", bound_onExit (by_signal "SIGHUP") true);
    ("SIGINT", bound_onExit (by_signal "SIGINT") true);
    ("SIGQUIT", bound_onExit (by_signal "SIGQUIT") true);
    ("SIGTERM", bound_onExit (by_signal "SIGTERM") true);
    ("SIGABRT", bound_onExit (by_signal "SIGABRT") true);
    ("SIGBREAK", bound_onExit (by_signal "SIGBREAK") true);
    ("disconnect", bound_onExit disconnected true);
    ("uncaughtExceptionMonitor", bound_onExit error false) ].

Definition is_application (l : listener) : Prop :=
  match fn l with application _ => True | exit_zero => False end.

(** The calls an emission of "exit" makes, one for each listener of
    the application, in the order of registration. *)
Definition calls (opts : classification) (args : list string)
    (ls : list listener) : list action :=
  omap (fun l => match fn l with
                 | application f => Some (called f opts args)
                 | exit_zero => None
                 end) ls.

Lemma length_calls opts args ls :
  Forall is_application ls -> length (calls opts args ls) = length ls.
Proof.
  induction 1 as [|l ls Hl _ IH]; [reflexivity|].
  unfold calls, is_application in *. simpl.
  destruct (fn l); [|contradiction]. simpl. now f_equal.
Qed.

(** The agent was constructed, the process runs, and the "exit"
    listeners are those of the application. *)
Definition ready (p : process) : Prop :=
  has_been_created p = true /\
  handlers p = agent_handlers /\
  exited p = None /\
  Forall is_application (exit_listeners p).

(** Nothing was constructed yet. *)
Definition blank (p : process) : Prop :=
  has_been_created p = false /\
  handlers p = [] /\
  exited p = None /\
  exit_listeners p = [].

Lemma constructor_blank (p : process) :
  blank p ->
  (constructor p).1 = Constructed /\ ready (constructor p).2.
Proof.
  intros (Hc & Hh & He & Hl). unfold constructor. rewrite Hc.
  split; [reflexivity|]. repeat split; simpl.
  - now rewrite Hh.
  - assumption.
  - rewrite Hl. constructor.
Qed.

Lemma constructor_again (p : process) :
  has_been_created p = true ->
  constructor p
  = (Thrown "[cluster-ops] Worker instance has already been created in this process",
     p).
Proof. intros H. unfold constructor. now rewrite H. Qed.

(** *** Emitting "exit" *)

Lemma call_listeners_app opts args (l1 l2 : list listener) (p : process) :
  call_listeners opts args (l1 ++ l2) p
  = call_listeners opts args l2 (call_listeners opts args l1 p).
Proof.
  revert p. induction l1 as [|l l1 IH]; intros p; simpl; [reflexivity|].
  destruct (alive p) eqn:Hp; [apply IH|].
  destruct l2; simpl; [reflexivity | now rewrite Hp].
Qed.

(** What the calls of the application's listeners leave untouched. *)
Definition same_process (p p' : process) : Prop :=
  has_been_created p' = has_been_created p /\
  handlers p' = handlers p /\
  registrations p' = registrations p /\
  exited p' = exited p /\
  exit_listeners p' ⊆ exit_listeners p.

Lemma call_listeners_application opts args (ls : list listener) (p : process) :
  Forall is_application ls ->
  exited p = None ->
  let p' := call_listeners opts args ls p in
  trace p' = trace p ++ calls opts args ls /\ same_process p p'.
Proof.
  intros Hls. revert p. induction Hls as [|l ls Hl Hls IH]; intros p Hp; simpl.
  - rewrite app_nil_r. now repeat split.
  - unfold alive. rewrite Hp.
    unfold is_application in Hl. unfold calls. simpl.
    unfold call_listener.
    destruct (fn l) as [f|] eqn:Hf; [|contradiction].
    destruct (once l).
    + destruct (IH (log (called f opts args) (remove_exit_listener (reg l) p)))
        as (Ht & H1 & H2 & H3 & H4 & H5); [exact Hp|].
      cbv zeta in *. rewrite Ht. simpl. rewrite <- app_assoc.
      split; [reflexivity|]. repeat split; try assumption.
      intros y Hy. apply H5 in Hy. simpl in Hy.
      now apply list_elem_of_filter in Hy as [_ Hy].
    + destruct (IH (log (called f opts args) p))
        as (Ht & H1 & H2 & H3 & H4 & H5); [exact Hp|].
      cbv zeta in *. rewrite Ht. simpl. rewrite <- app_assoc.
      split; [reflexivity|]. now repeat split.
Qed.

(** [#onExit] with [exit] set: the listeners of the application are
    called, then the process ends with code 0. *)
Lemma onExit_forced opts args (p : process) :
  exited p = None ->
  Forall is_application (exit_listeners p) ->
  let p' := onExit opts true args p in
  trace p' = trace p ++ calls opts args (exit_listeners p) ++ [process_exit 0] /\
  exited p' = Some 0.
Proof.
  intros Hp Hls. unfold onExit, emit_exit. simpl.
  rewrite call_listeners_app.
  destruct (call_listeners_application opts args (exit_listeners p)
              (add_exit_listener exit_zero true p) Hls Hp)
    as (Ht & _ & _ & _ & He & _).
  cbv zeta in *. simpl. unfold alive. rewrite He. simpl. rewrite Hp.
  unfold call_listener. simpl. rewrite Ht. simpl.
  now rewrite <- app_assoc.
Qed.

(** [#onExit] with [exit] unset: the listeners are called and the
    process goes on. *)
Lemma onExit_passive opts args (p : process) :
  exited p = None ->
  Forall is_application (exit_listeners p) ->
  let p' := onExit opts false args p in
  trace p' = trace p ++ calls opts args (exit_listeners p) /\
  same_process p p'.
Proof.
  intros Hp Hls. unfold onExit, emit_exit. simpl.
  now apply call_listeners_application.
Qed.

(** *** Events of [process] *)

Lemma alive_ready (p : process) : ready p -> alive p = true.
Proof. intros (_ & _ & He & _). unfold alive. now rewrite He. Qed.

(** One handler of the event, unless the process has ended. *)
Definition call_if_alive (e : process_event) (p : process)
    (nh : string * process_handler) : process :=
  if alive p then call_handler e nh.2 p else p.

Lemma foldl_call_dead e hs (p : process) :
  alive p = false -> foldl (call_if_alive e) p hs = p.
Proof.
  intros H. induction hs as [|nh hs IH]; simpl; [reflexivity|].
  unfold call_if_alive at 2. now rewrite H.
Qed.

(** An event reaches the handlers registered under its name, in the
    order of their registration. *)
Lemma call_handlers_filter e hs (p : process) :
  call_handlers e hs p
  = foldl (call_if_alive e) p (filter (fun nh => nh.1 = event_name e) hs).
Proof.
  revert p. induction hs as [|[name h] hs IH]; intros p; [reflexivity|].
  cbn [call_handlers]. destruct (alive p) eqn:Ha.
  - destruct (decide (name = event_name e)) as [Hn|Hn].
    + rewrite filter_cons_True by exact Hn. simpl.
      unfold call_if_alive at 2. rewrite Ha. apply IH.
    + rewrite filter_cons_False by exact Hn. apply IH.
  - now rewrite foldl_call_dead.
Qed.

Lemma process_emit_ready (e : process_event) (p : process) :
  ready p ->
  process_emit e p
  = foldl (call_if_alive e) p
      (filter (fun nh => nh.1 = event_name e) agent_handlers).
Proof.
  intros (_ & Hh & _). unfold process_emit. rewrite Hh.
  apply call_handlers_filter.
Qed.

(** A message that is the EXIT system call. *)
Lemma process_emit_EXIT (p : process) (msg : envelope) :
  ready p ->
  type msg = type_null ->
  call msg = Some EXIT ->
  process_emit (ev_message msg) p = onExit requested true [] p.
Proof.
  intros Hr Hty Hcall. rewrite (process_emit_ready _ p Hr).
  change (filter _ agent_handlers) with [("message", bound_onMessage)].
  simpl. unfold call_if_alive. rewrite (alive_ready p Hr). simpl.
  unfold onMessage. rewrite Hty.
  unfold onSystemMessage. now rewrite decide_True.
Qed.

Lemma process_emit_uncaught (p : process) (args : list string) :
  ready p ->
  process_emit (ev_named "uncaughtExceptionMonitor" args) p
  = onExit error false args p.
Proof.
  intros Hr. rewrite (process_emit_ready _ p Hr).
  change (filter _ agent_handlers)
    with [("uncaughtExceptionMonitor", bound_onExit error false)].
  simpl. unfold call_if_alive. now rewrite (alive_ready p Hr).
Qed.

Lemma process_emit_disconnect (p : process) (args : list string) :
  ready p ->
  process_emit (ev_named "disconnect" args) p
  = onExit disconnected true args p.
Proof.
  intros Hr. rewrite (process_emit_ready _ p Hr).
  change (filter _ agent_handlers)
    with [("disconnect", bound_onExit disconnected true)].
  simpl. unfold call_if_alive. now rewrite (alive_ready p Hr).
Qed.

Lemma process_emit_signal (p : process) (s : string) (args : list string) :
  ready p ->
  s ∈ CATCH_SIGNALS ->
  process_emit (ev_named ("SIG" +:+ s) args) p
  = onExit (by_signal ("SIG" +:+ s)) true args p.
Proof.
  intros Hr Hs. rewrite (process_emit_ready _ p Hr).
  unfold CATCH_SIGNALS in Hs.
  repeat (apply elem_of_cons in Hs as [->|Hs];
          [simpl; unfold call_if_alive; now rewrite (alive_ready p Hr)|]).
  inversion Hs.
Qed.

(** *** The states a worker process goes through *)

(** The agent is in place, or the process has ended. *)
Definition live_or_dead (p : process) : Prop :=
  ready p \/ is_Some (exited p).

Lemma ready_same_process (p p' : process) :
  ready p -> same_process p p' -> ready p'.
Proof.
  intros (Hc & Hh & He & Hls) (H1 & H2 & _ & H4 & H5).
  repeat split; try congruence.
  rewrite Forall_forall in *. intros l Hl. apply Hls, H5, Hl.
Qed.

Lemma ready_log (p : process) (a : action) : ready p -> ready (log a p).
Proof. intros (Hc & Hh & He & Hls). now repeat split. Qed.

Lemma ready_add_exit_listener (p : process) (f : nat) (o : bool) :
  ready p -> ready (add_exit_listener (application f) o p).
Proof.
  intros (Hc & Hh & He & Hls). repeat split; try assumption. simpl.
  apply Forall_app. split; [assumption|]. now repeat constructor.
Qed.

Lemma live_or_dead_onExit opts exit args (p : process) :
  ready p -> live_or_dead (onExit opts exit args p).
Proof.
  intros Hr. pose proof Hr as (_ & _ & He & Hls). destruct exit.
  - right. destruct (onExit_forced opts args p He Hls) as [_ H].
    cbv zeta in H. rewrite H. now eexists.
  - left. destruct (onExit_passive opts args p He Hls) as [_ H].
    now apply (ready_same_process p).
Qed.

Lemma live_or_dead_call_handler e h (p : process) :
  ready p -> live_or_dead (call_handler e h p).
Proof.
  intros Hr. destruct h as [|opts exit], e as [msg|name args]; simpl;
    try (now apply live_or_dead_onExit); try (now left).
  unfold onMessage. destruct (type msg).
  - unfold onSystemMessage. destruct (decide _); [|now left].
    now apply live_or_dead_onExit.
  - left. now apply ready_log.
  - left. now apply ready_log.
Qed.

Lemma live_or_dead_call_handlers e hs (p : process) :
  live_or_dead p -> live_or_dead (call_handlers e hs p).
Proof.
  revert p. induction hs as [|[name h] hs IH]; intros p Hp; [assumption|].
  cbn [call_handlers]. destruct (alive p) eqn:Ha; [|assumption].
  apply IH. destruct (decide _); [|assumption].
  destruct Hp as [Hr|[code Hc]].
  - now apply live_or_dead_call_handler.
  - unfold alive in Ha. rewrite Hc in Ha. discriminate.
Qed.

Lemma live_or_dead_step (p : process) (i : input) :
  live_or_dead p -> live_or_dead (step p i).
Proof.
  intros Hp. unfold step. destruct (alive p) eqn:Ha; [|assumption].
  destruct Hp as [Hr|[code Hc]];
    [|unfold alive in Ha; rewrite Hc in Ha; discriminate].
  pose proof Hr as (Hc & _).
  destruct i as [|f|f|m ty|e]; rewrite ?Hc.
  - rewrite constructor_again by assumption. now left.
  - left. now apply ready_add_exit_listener.
  - left. now apply ready_add_exit_listener.
  - left. now apply ready_log.
  - apply live_or_dead_call_handlers. now left.
Qed.

Lemma step_blank (p : process) (i : input) :
  blank p -> i <> do_construct -> step p i = p.
Proof.
  intros (Hc & Hh & He & Hl) Hi. unfold step, alive. rewrite He.
  destruct i; try contradiction; rewrite ?Hc; try reflexivity.
  unfold process_emit. now rewrite Hh.
Qed.

Lemma step_construct_blank (p : process) :
  blank p -> ready (step p do_construct).
Proof.
  intros Hb. pose proof Hb as (_ & _ & He & _).
  unfold step, alive. rewrite He. now apply constructor_blank.
Qed.

Lemma fresh_blank : blank fresh.
Proof. now repeat split. Qed.

(** Whatever happened in the process, it is in one of three states. *)
Lemma run_states (ins : list input) (p : process) :
  blank p \/ live_or_dead p ->
  blank (run ins p) \/ live_or_dead (run ins p).
Proof.
  revert p. induction ins as [|i ins IH]; intros p Hp; [assumption|].
  simpl. apply IH. destruct Hp as [Hb|Hl].
  - assert (i = do_construct \/ i <> do_construct) as [->|Hi]
      by (destruct i; (now left) || (right; discriminate)).
    + right. left. now apply step_construct_blank.
    + left. now rewrite step_blank.
  - right. now apply live_or_dead_step.
Qed.

Lemma run_ready (ins : list input) :
  has_been_created (run ins fresh) = true ->
  exited (run ins fresh) = None ->
  ready (run ins fresh).
Proof.
  intros Hc He.
  destruct (run_states ins fresh (or_introl fresh_blank))
    as [(Hc' & _)|[Hr|[code Hx]]]; [congruence | assumption | congruence].
Qed.

(** C6.  In a worker process whose agent is constructed and which still
    runs, every "exit" listener is one of the application's, and:
    the EXIT system call has each of them called with [requested], in
    the order of registration, and then ends the process with code 0;
    so do a signal of [CATCH_SIGNALS], with the signal's name, and the
    loss of the channel, with [disconnected]; an uncaught error
    reported by the monitoring hook has them called with [error] and
    leaves the process running. *)
Theorem agent_exit_notifications (ins : list input) :
  let p := run ins fresh in
  has_been_created p = true ->
  exited p = None ->
  Forall is_application (exit_listeners p) /\
  (forall msg,
      type msg = type_null -> call msg = Some EXIT ->
      let p' := process_emit (ev_message msg) p in
      trace p'
      = trace p ++ calls requested [] (exit_listeners p) ++ [process_exit 0] /\
      exited p' = Some 0) /\
  (forall args,
      let p' := process_emit (ev_named "uncaughtExceptionMonitor" args) p in
      trace p' = trace p ++ calls error args (exit_listeners p) /\
      exited p' = None) /\
  (forall s args,
      s ∈ CATCH_SIGNALS ->
      let p' := process_emit (ev_named ("SIG" +:+ s) args) p in
      trace p'
      = trace p ++ calls (by_signal ("SIG" +:+ s)) args (exit_listeners p)
          ++ [process_exit 0] /\
      exited p' = Some 0) /\
  (forall args,
      let p' := process_emit (ev_named "disconnect" args) p in
      trace p'
      = trace p ++ calls disconnected args (exit_listeners p)
          ++ [process_exit 0] /\
      exited p' = Some 0).
Proof.
  intros p Hc He. pose proof (run_ready ins Hc He) as Hr. fold p in Hr.
  pose proof Hr as (_ & _ & _ & Hls).
  split; [exact Hls|]. split; [|split; [|split]].
  - intros msg Hty Hcall. cbv zeta.
    rewrite (process_emit_EXIT p msg Hr Hty Hcall).
    now apply onExit_forced.
  - intros args. cbv zeta. rewrite (process_emit_uncaught p args Hr).
    destruct (onExit_passive error args p He Hls)
      as (Ht & _ & _ & _ & Hx & _).
    split; [exact Ht | congruence].
  - intros s args Hs. cbv zeta.
    rewrite (process_emit_signal p s args Hr Hs).
    now apply onExit_forced.
  - intros args. cbv zeta. rewrite (process_emit_disconnect p args Hr).
    now apply onExit_forced.
Qed.

(** An agent with two listeners, the second registered with [once]. *)
Lemma agent_exit_notifications_witness :
  let ins := [do_construct; do_on_exit 7; do_once_exit 8] in
  let p := run ins fresh in
  has_been_created p = true /\
  exited p = None /\
  trace (process_emit (ev_message Scenario.exit_request) p)
  = trace p ++ calls requested [] (exit_listeners p) ++ [process_exit 0] /\
  calls requested [] (exit_listeners p)
  = [called 7 requested []; called 8 requested []] /\
  exited (process_emit (ev_named "uncaughtExceptionMonitor" []) p) = None.
Proof.
  intros ins p.
  assert (has_been_created p = true) as Hc by reflexivity.
  assert (exited p = None) as He by reflexivity.
  destruct (agent_exit_notifications ins Hc He)
    as (_ & Hexit & Herr & _ & _).
  split; [exact Hc|]. split; [exact He|].
  split; [exact (proj1 (Hexit Scenario.exit_request eq_refl eq_refl))|].
  split; [reflexivity|].
  exact (proj2 (Herr [])).
Defined.

(** *** One agent per process *)

Definition already_created : outcome :=
  Thrown "[cluster-ops] Worker instance has already been created in this process".

Lemma constructions_created (ins : list input) (p : process) :
  live_or_dead p ->
  exists n, constructions ins p = replicate n already_created.
Proof.
  revert p. induction ins as [|i ins IH]; intros p Hp; [now exists 0%nat|].
  destruct (IH (step p i) (live_or_dead_step p i Hp)) as [n Hn].
  cbn [constructions]. rewrite Hn.
  destruct i; try (now exists n).
  destruct (alive p) eqn:Ha; [|now exists n].
  destruct Hp as [(Hc & _)|[code Hx]];
    [|unfold alive in Ha; rewrite Hx in Ha; discriminate].
  rewrite constructor_again by assumption. now exists (S n).
Qed.

(** C7.  In a process where nothing was constructed, a construction
    succeeds; once one has succeeded, a construction throws and leaves
    the process as it is.  So of the constructions attempted in a
    process, however they are mixed with other events, the first
    succeeds and every later one throws. *)
Theorem single_instance (ins : list input) :
  (constructor fresh).1 = Constructed /\
  (forall p, has_been_created p = true ->
             constructor p = (already_created, p)) /\
  (constructions ins fresh = [] \/
   exists n, constructions ins fresh
             = Constructed :: replicate n already_created).
Proof.
  split; [reflexivity|]. split; [exact constructor_again|].
  assert (forall p, blank p ->
            constructions ins p = [] \/
            exists n, constructions ins p
                      = Constructed :: replicate n already_created) as H;
    [|apply H, fresh_blank].
  induction ins as [|i ins IH]; intros p Hb; [now left|].
  assert (i = do_construct \/ i <> do_construct) as [->|Hi]
    by (destruct i; (now left) || (right; discriminate)).
  - right. cbn [constructions].
    pose proof Hb as (_ & _ & He & _). unfold alive. rewrite He.
    destruct (constructor_blank p Hb) as [-> _].
    destruct (constructions_created ins (step p do_construct)) as [n Hn].
    { left. now apply step_construct_blank. }
    exists n. now rewrite Hn.
  - cbn [constructions]. rewrite step_blank by assumption.
    destruct (IH p Hb) as [Hnil|[n Hn]].
    + left. rewrite Hnil. now destruct i.
    + right. exists n. rewrite Hn. now destruct i.
Qed.

(** *** Further properties of the WorkerAgent *)

Lemma process_emit_message (p : process) (msg : envelope) :
  ready p ->
  process_emit (ev_message msg) p = onMessage msg p.
Proof.
  intros Hr. rewrite (process_emit_ready _ p Hr).
  change (filter _ agent_handlers) with [("message", bound_onMessage)].
  cbn [foldl]. unfold call_if_alive. now rewrite (alive_ready p Hr).
Qed.

(** The demultiplexing of inbound messages in a running agent.  A
    message that is not the EXIT system call never ends the process
    and never calls an "exit" listener: a plain message is re-emitted
    as "message" with the whole envelope, a typed one as
    "message-<type>" with its payload, and a system message with any
    other call, or none, is dropped without a trace. *)
Theorem agent_message_demux (ins : list input) (msg : envelope) :
  let p := run ins fresh in
  let p' := process_emit (ev_message msg) p in
  has_been_created p = true ->
  exited p = None ->
  (type msg = type_null -> call msg <> Some EXIT -> p' = p) /\
  (type msg = type_undefined ->
   p' = log (emitted "message" (inl msg)) p) /\
  (forall name, type msg = type_named name ->
   p' = log (emitted ("message-" +:+ name) (inr (message msg))) p) /\
  (~ (type msg = type_null /\ call msg = Some EXIT) ->
   exited p' = None /\ exit_listeners p' = exit_listeners p).
Proof.
  intros p p' Hc He. pose proof (run_ready ins Hc He) as Hr. fold p in Hr.
  subst p'. rewrite (process_emit_message p msg Hr).
  unfold onMessage, onSystemMessage.
  split; [|split; [|split]].
  - intros -> Hcall. now rewrite decide_False.
  - now intros ->.
  - now intros name ->.
  - intros Hn. destruct (type msg); [|now split..].
    destruct (decide (call msg = Some EXIT)); [|now split].
    exfalso. apply Hn. now split.
Qed.

Lemma agent_message_demux_witness :
  let p := run [do_construct; do_on_exit 7] fresh in
  has_been_created p = true /\
  exited p = None /\
  process_emit (ev_message (Scenario.spin_up_request 1)) p = p.
Proof.
  intros p.
  assert (has_been_created p = true) as Hc by reflexivity.
  assert (exited p = None) as He by reflexivity.
  destruct (agent_message_demux [do_construct; do_on_exit 7]
              (Scenario.spin_up_request 1) Hc He) as (Hdrop & _).
  split; [exact Hc|]. split; [exact He|].
  apply Hdrop; [reflexivity | discriminate].
Defined.

(** The request [#terminateWorker] sends is not the one the agent
    waits for: it carries the system call under [system], the agent
    reads [call].  A running agent that receives it does nothing: no
    "exit" listener is called and the process does not end. *)
Theorem terminate_request_not_understood (c : Cluster.t) (k : string)
    (r : nat) (x : Cluster.worker) (ins : list input) :
  Obj.get k (Cluster.workers c) = Some r ->
  Cluster.heap c !! r = Some x ->
  has_been_created (run ins fresh) = true ->
  exited (run ins fresh) = None ->
  exists m,
    Cluster.sent <$>
      Cluster.heap (Cluster.exec (Cluster.terminateWorker (Some k)) c) !! r
    = Some (Cluster.sent x ++ [m]) /\
    system m = Some EXIT /\
    call m = None /\
    process_emit (ev_message m) (run ins fresh) = run ins fresh.
Proof.
  intros Hget Hx Hc He. exists (ClusterFacts.EXIT_request (Some k)).
  split; [|split; [reflexivity|split; [reflexivity|]]].
  - unfold Cluster.exec.
    rewrite (ClusterFacts.terminateWorker_found (Some k) r c Hget).
    cbn [snd Cluster.heap Cluster.set_heap].
    now rewrite list_lookup_alter_eq, Hx.
  - destruct (agent_message_demux ins (ClusterFacts.EXIT_request (Some k))
                Hc He) as (Hdrop & _).
    apply Hdrop; [reflexivity | discriminate].
Qed.

Lemma terminate_request_not_understood_witness :
  let p := run [do_construct; do_on_exit 7] fresh in
  exists m,
    Cluster.sent <$>
      Cluster.heap
        (Cluster.exec
           (Cluster.terminateWorker (Some "6553f1000001020304050607"))
           (Scenario.pool 1)) !! 0%nat
    = Some ([] ++ [m]) /\
    process_emit (ev_message m) p = p.
Proof.
  intros p.
  destruct (terminate_request_not_understood (Scenario.pool 1)
              "6553f1000001020304050607" 0
              (ClusterFacts.next_worker (Scenario.cluster 1))
              [do_construct; do_on_exit 7])
    as (m & Hs & _ & _ & Hp); try reflexivity.
  exists m. split; [exact Hs | exact Hp].
Defined.

Lemma filter_none (name : string) (hs : list (string * process_handler)) :
  Forall (fun nh => nh.1 <> name) hs ->
  filter (fun nh => nh.1 = name) hs = [].
Proof.
  induction 1 as [|nh hs Hn _ IH]; [reflexivity|].
  now rewrite filter_cons_False.
Qed.

(** The agent reacts to no other signal than those of [CATCH_SIGNALS]:
    any other one leaves the process as it is. *)
Theorem other_signal_ignored (ins : list input) (s : string)
    (args : list string) :
  has_been_created (run ins fresh) = true ->
  exited (run ins fresh) = None ->
  s ∉ CATCH_SIGNALS ->
  process_emit (ev_named ("SIG" +:+ s) args) (run ins fresh)
  = run ins fresh.
Proof.
  intros Hc He Hs. pose proof (run_ready ins Hc He) as Hr.
  rewrite (process_emit_ready _ _ Hr). cbn [event_name].
  rewrite filter_none; [reflexivity|].
  change ("SIG" +:+ s) with (String "S" (String "I" (String "G" s))).
  unfold agent_handlers, CATCH_SIGNALS in *.
  repeat constructor; cbn [fst]; intros H; try discriminate H;
    injection H as <-; apply Hs;
    repeat (first [apply list_elem_of_here | apply list_elem_of_further]).
Qed.

Lemma other_signal_ignored_witness :
  let p := run [do_construct; do_on_exit 7] fresh in
  process_emit (ev_named ("SIG" +:+ "USR1") []) p = p.
Proof.
  intros p.
  apply (other_signal_ignored [do_construct; do_on_exit 7] "USR1" []);
    [reflexivity | reflexivity |].
  unfold CATCH_SIGNALS. intros H.
  repeat (apply elem_of_cons in H as [H|H]; [discriminate H|]).
  inversion H.
Defined.

(** What the agent's [send] puts on the channel, as the Supervisor's
    [#onMessage] handles it: without a type the Supervisor emits
    "message" with the envelope, with a named type it emits
    "message-<type>" with the payload, and with the type [null] the
    message is taken for a system call without a call and dropped. *)
Theorem send_then_onMessage (p : process) (m : string) (ty : msg_type)
    (c : Cluster.t) (w : nat) :
  exists env,
    trace (send m ty p) = trace p ++ [process_send env] /\
    type env = ty /\
    message env = m /\
    Cluster.onMessage w env c
    = (Cluster.Returned tt,
       match ty with
       | type_null => c
       | type_undefined =>
           Cluster.set_emitted
             (Cluster.emitted c ++ [Cluster.message_plain w env]) c
       | type_named name =>
           Cluster.set_emitted
             (Cluster.emitted c ++ [Cluster.message_typed name w m]) c
       end).
Proof.
  eexists. split; [reflexivity|]. split; [reflexivity|].
  split; [reflexivity|]. now destruct ty.
Qed.

End WorkerFacts.
